(** * youtube-summarizer-genkit: transcript pipeline, chunker, limiter

    A shallow embedding of the server module (the second document of
    [src/frontend/src/app/app.ts]): [extractVideoId], [fetchTranscript],
    [chunk], the [summarizeYouTube] flow and the rate-limiting middleware.

    Conventions.
    - A JavaScript string is a [string]: a sequence of 8-bit code units.
      [String.length] is the [.length] of the source; the white space class
      [\s] (and the one of [trim]) is restricted to the code units below 256.
    - [maxLen] is a character count, a [nat].
    - [Date.now()] is an integer number of milliseconds, a [Z].
    - The module-level [Map] of the limiter is a [gmap string (list Z)].
    - Calls that leave the process (caption service, metadata service, the
      generation backend) answer through an environment that sees the whole
      history of calls; each of them may throw. *)

From Stdlib Require Import String Ascii List ZArith Lia Bool DecimalString.
From stdpp Require Import gmap strings list.
Import ListNotations.

Set Warnings "-abstract-large-number".

Local Open Scope string_scope.
Local Open Scope list_scope.

(** ** JavaScript string primitives *)

Module Js.

(** [\s]: the ECMAScript WhiteSpace and LineTerminator code points that fit
    in one 8-bit code unit: TAB, LF, VT, FF, CR, SPACE, NBSP. *)
Definition isSpace (c : ascii) : bool :=
  match nat_of_ascii c with
  | 9 | 10 | 11 | 12 | 13 | 32 | 160 => true
  | _ => false
  end.

(** The class [[.!?]]. *)
Definition isTerminal (c : ascii) : bool :=
  match nat_of_ascii c with
  | 33 | 46 | 63 => true
  | _ => false
  end.

(** [\w] or [-]: the class [[\w-]]. *)
Definition isIdChar (c : ascii) : bool :=
  let n := nat_of_ascii c in
  (((48 <=? n) && (n <=? 57)) || ((65 <=? n) && (n <=? 90))
   || ((97 <=? n) && (n <=? 122)) || (n =? 95) || (n =? 45))%nat.

(** Truthiness of a string: [Boolean(s)]. *)
Definition truthy (s : string) : bool :=
  match s with
  | EmptyString => false
  | String _ _ => true
  end.

Fixpoint allb (p : ascii -> bool) (s : string) : bool :=
  match s with
  | EmptyString => true
  | String c s' => p c && allb p s'
  end.

(** [s.trimStart()] *)
Fixpoint trimStart (s : string) : string :=
  match s with
  | EmptyString => EmptyString
  | String c s' => if isSpace c then trimStart s' else s
  end.

(** [s.trimEnd()] *)
Fixpoint trimEnd (s : string) : string :=
  match s with
  | EmptyString => EmptyString
  | String c s' =>
      match trimEnd s' with
      | EmptyString => if isSpace c then EmptyString else String c EmptyString
      | t => String c t
      end
  end.

(** [s.trim()] *)
Definition trim (s : string) : string := trimEnd (trimStart s).

(** [l.join(sep)] *)
Fixpoint join (sep : string) (l : list string) : string :=
  match l with
  | [] => ""
  | [x] => x
  | x :: rest => x +:+ sep +:+ join sep rest
  end.

(** [s.includes(t)] *)
Fixpoint includes (t s : string) : bool :=
  String.prefix t s
  || match s with
     | EmptyString => false
     | String _ s' => includes t s'
     end.

(** [s.slice(1)] *)
Definition slice1 (s : string) : string :=
  match s with
  | EmptyString => EmptyString
  | String _ s' => s'
  end.

(** Prepend a code unit to the first element of a non-empty list of
    strings. *)
Definition consHead (c : ascii) (l : list string) : list string :=
  match l with
  | [] => [String c EmptyString]
  | p :: ps => String c p :: ps
  end.

(** [s.split(sep)] for a one-character separator string. *)
Fixpoint splitOn (sep : ascii) (s : string) : list string :=
  match s with
  | EmptyString => [EmptyString]
  | String c s' =>
      if Ascii.eqb c sep then EmptyString :: splitOn sep s'
      else consHead c (splitOn sep s')
  end.

(** [l.indexOf(x)], [None] for [-1]. *)
Fixpoint indexOf (x : string) (l : list string) : option nat :=
  match l with
  | [] => None
  | y :: rest =>
      if String.eqb y x then Some 0
      else option_map S (indexOf x rest)
  end.

(** Decimal rendering of a number in a template literal. *)
Definition ofNat (n : nat) : string := NilEmpty.string_of_uint (Nat.to_uint n).

End Js.

(** ** The regular expression split of the chunker

    [text.split(/(?<=[.!?])\s+/)] scans [text] from the left. The pattern
    matches at a position exactly when the code unit before it is one of
    [. ! ?] and a white space run starts there; [\s+] is greedy and nothing
    follows it, so the match takes the whole run. The piece accumulated so
    far ends at the match, the run is dropped, and the next piece begins
    after it. The scanner below keeps what the look-behind needs. *)

Inductive Scan : Type :=
| Plain      (* the previous code unit is not a terminator (or there is none) *)
| AfterTerm  (* the previous code unit is one of . ! ? *)
| InSep.     (* inside a separator run that is being dropped *)

Definition scanAfter (c : ascii) : Scan :=
  if Js.isTerminal c then AfterTerm else Plain.

(** The pieces of [s] scanned from state [st]; the head of the result is the
    piece in progress. *)
Fixpoint splitFrom (st : Scan) (s : string) : list string :=
  match s with
  | EmptyString => [EmptyString]
  | String c s' =>
      match st, Js.isSpace c with
      | InSep, true => splitFrom InSep s'
      | AfterTerm, true => EmptyString :: splitFrom InSep s'
      | _, _ => Js.consHead c (splitFrom (scanAfter c) s')
      end
  end.

Definition splitSentences (text : string) : list string := splitFrom Plain text.

(** ** chunk *)

(** The state of the loop of [chunk]: the chunks pushed so far and the
    buffer. *)
Record ChunkState : Type := mkChunkState { parts : list string; buf : string }.

(** One iteration of [for (const piece of ...)]. *)
Definition chunkStep (maxLen : nat) (st : ChunkState) (piece : string) : ChunkState :=
  if (maxLen <? String.length (buf st +:+ " " +:+ piece))%nat then
    {| parts := parts st ++ [Js.trim (buf st)]; buf := piece |}
  else
    {| parts := parts st;
       buf := buf st +:+ (if Js.truthy (buf st) then " " else "") +:+ piece |}.

(** [if (buf.trim()) parts.push(buf.trim()); return parts;] *)
Definition chunkFinish (st : ChunkState) : list string :=
  if Js.truthy (Js.trim (buf st)) then parts st ++ [Js.trim (buf st)] else parts st.

Definition chunk (text : string) (maxLen : nat) : list string :=
  chunkFinish
    (fold_left (chunkStep maxLen) (splitSentences text) {| parts := []; buf := "" |}).

(** ** extractVideoId *)

(** What the resolver reads of a parsed [URL]. *)
Record URL : Type := mkURL {
  hostname : string;
  pathname : string;
  searchParams : list (string * string)
}.

(** [/^[\w-]{11}$/.test(input)] *)
Definition isVideoId (input : string) : bool :=
  (String.length input =? 11)%nat && Js.allb Js.isIdChar input.

(** [url.searchParams.get(name)]: the first value, [None] for [null]. *)
Fixpoint searchGet (name : string) (ps : list (string * string)) : option string :=
  match ps with
  | [] => None
  | (k, v) :: rest => if String.eqb k name then Some v else searchGet name rest
  end.

(** [idx >= 0 && parts[idx + 1]] followed by [return parts[idx + 1]]. *)
Definition afterEmbed (segments : list string) : option string :=
  match Js.indexOf "embed" segments with
  | None => None
  | Some idx =>
      match nth_error segments (S idx) with
      | Some seg => if Js.truthy seg then Some seg else None
      | None => None
      end
  end.

Section Resolver.

(** [new URL(input)]; [None] when the constructor throws. *)
Variable parseURL : string -> option URL.

Definition extractVideoId (input : string) : option string :=
  if isVideoId input then Some input
  else
    match parseURL input with
    | None => None
    | Some url =>
        if Js.includes "youtu.be" (hostname url) then Some (Js.slice1 (pathname url))
        else
          match searchGet "v" (searchParams url) with
          | Some (String c v') => Some (String c v')
          | _ => afterEmbed (Js.splitOn "/" (pathname url))
          end
    end.

End Resolver.

(** The values of [new URL(...)] on the inputs of the examples below. *)
Definition exampleURL (input : string) : option URL :=
  if String.eqb input "https://youtu.be/abc" then
    Some {| hostname := "youtu.be"; pathname := "/abc"; searchParams := [] |}
  else if String.eqb input "https://www.youtube.com/watch?v=dQw4w9WgXcQ" then
    Some {| hostname := "www.youtube.com"; pathname := "/watch";
            searchParams := [("v", "dQw4w9WgXcQ")] |}
  else if String.eqb input "https://www.youtube.com/embed/dQw4w9WgXcQ" then
    Some {| hostname := "www.youtube.com"; pathname := "/embed/dQw4w9WgXcQ";
            searchParams := [] |}
  else None.

(** ** Calls that leave the process *)

Inductive Call : Type :=
| FetchCaptions (videoId : string) (lang : option string)
| GetMetadata (url : string)
| GenerateText (prompt : string)
| GenerateStructured (prompt : string).

(** The answer of an awaited call: it throws or gives a value. *)
Inductive Ext (A : Type) : Type :=
| Threw
| Gave (a : A).
Arguments Threw {A}.
Arguments Gave {A} a.

Record SummaryResult : Type := mkSummary {
  title : string;
  summary : string;
  bullets : list string;
  warnings : option (list string)
}.

(** The world around the flow. Every service sees the calls made so far.
    - [captions h id lang]: the texts of the cues of
      [YoutubeTranscript.fetchTranscript];
    - [metadata h url]: the title and description of [res.data.items?.[0]],
      [None] when there is no item; a malformed answer throws inside the
      [try] as the call itself would;
    - [generate h prompt]: [res.text] of [ai.generate] (empty for a missing
      text);
    - [generateOutput h prompt]: [finalRes.output] of the schema-constrained
      [ai.generate], [None] when [finalRes] or its output is missing. *)
Record Env : Type := mkEnv {
  parseURL : string -> option URL;
  YOUTUBE_API_KEY : option string;
  captions : list Call -> string -> option string -> Ext (list string);
  metadata : list Call -> string -> Ext (option (string * string));
  generate : list Call -> string -> Ext string;
  generateOutput : list Call -> string -> Ext (option SummaryResult)
}.

(** ** A monad for the flow: the log of calls, and exceptions *)

Inductive Outcome (A : Type) : Type :=
| Returned (a : A)
| Raised.
Arguments Returned {A} a.
Arguments Raised {A}.

Definition M (A : Type) : Type := list Call -> Outcome A * list Call.

Definition ret {A} (a : A) : M A := fun h => (Returned a, h).

Definition bind {A B} (m : M A) (k : A -> M B) : M B :=
  fun h =>
    match m h with
    | (Returned a, h') => k a h'
    | (Raised, h') => (Raised, h')
    end.

(** [try { m } catch { handler }] *)
Definition tryCatch {A} (m : M A) (handler : M A) : M A :=
  fun h =>
    match m h with
    | (Returned a, h') => (Returned a, h')
    | (Raised, h') => handler h'
    end.

(** [await] of a call [c] answered by [answer]. *)
Definition await {A} (c : Call) (answer : list Call -> Ext A) : M A :=
  fun h =>
    match answer h with
    | Gave a => (Returned a, h ++ [c])
    | Threw => (Raised, h ++ [c])
    end.

Notation "'do' x <- m ; k" := (bind m (fun x => k))
  (at level 10, x name, m at level 100, k at level 200).

Definition nl : string := String (ascii_of_nat 10) EmptyString.

(** [!s] for a value of type [string | null]. *)
Definition absent (s : option string) : bool :=
  match s with
  | Some t => negb (Js.truthy t)
  | None => true
  end.

(** ** fetchTranscript *)

Section Flow.

Variable env : Env.

Definition metadataURL (videoId apiKey : string) : string :=
  "https://www.googleapis.com/youtube/v3/videos?part=snippet&id=" +:+ videoId
  +:+ "&key=" +:+ apiKey.

(** One caption tier: the [try] block returns the joined cue texts when
    there are cues; [None] stands for falling out of the block. *)
Definition captionTier (videoId : string) (lang : option string) : M (option string) :=
  tryCatch
    (do texts <- await (FetchCaptions videoId lang) (fun h => captions env h videoId lang);
     match texts with
     | [] => ret None
     | _ :: _ => ret (Some (Js.join " " texts))
     end)
    (ret None).

Definition metadataTier (videoId apiKey : string) : M (option string) :=
  tryCatch
    (do item <- await (GetMetadata (metadataURL videoId apiKey))
                   (fun h => metadata env h (metadataURL videoId apiKey));
     match item with
     | Some (title, description) => ret (Some (title +:+ nl +:+ description))
     | None => ret None
     end)
    (ret None).

Definition fetchTranscript (videoId : string) : M (option string) :=
  do r1 <- captionTier videoId (Some "en");
  match r1 with
  | Some text => ret (Some text)
  | None =>
      do r2 <- captionTier videoId None;
      match r2 with
      | Some text => ret (Some text)
      | None =>
          if absent (YOUTUBE_API_KEY env) then ret None
          else metadataTier videoId (default "" (YOUTUBE_API_KEY env))
      end
  end.

(** ** summarizeYouTube *)

Definition invalidReference : SummaryResult :=
  {| title := "Invalid YouTube URL or ID";
     summary := "The provided input is not a valid YouTube URL or video ID.";
     bullets := [];
     warnings := Some ["Invalid YouTube URL or ID provided."] |}.

Definition transcriptUnavailable : SummaryResult :=
  {| title := "Transcript not available";
     summary := "This video has no subtitles or transcript.";
     bullets := [];
     warnings := Some ["YouTube did not expose captions for this video."] |}.

Definition emptyTranscript : SummaryResult :=
  {| title := "Transcript is empty";
     summary := "The transcript for this video is empty or could not be processed.";
     bullets := [];
     warnings := Some ["Transcript is empty or invalid."] |}.

Definition allChunksFailed : SummaryResult :=
  {| title := "Summary unavailable";
     summary := "Unable to generate summary from the transcript.";
     bullets := [];
     warnings := Some ["Failed to generate summary from transcript chunks."] |}.

Definition noFinalOutput : SummaryResult :=
  {| title := "Summary unavailable";
     summary := "Unable to generate a valid summary from the transcript.";
     bullets := [];
     warnings := Some ["Failed to parse final summary output."] |}.

Definition generationError : SummaryResult :=
  {| title := "Summary generation error";
     summary := "An error occurred while generating the summary.";
     bullets := [];
     warnings := Some ["Exception during final summary generation."] |}.

(** The prompt of step 1 for the chunk at index [i] of [total]. *)
Definition chunkPrompt (i total : nat) (section : string) : string :=
  "Summarize the following transcript chunk (" +:+ Js.ofNat (i + 1) +:+ "/"
  +:+ Js.ofNat total
  +:+ ") into 5–8 bullet points. Be concise, specific, and factual."
  +:+ nl +:+ nl +:+ section.

(** The prompt of step 2. *)
Definition finalPrompt (combinedBullets : string) : string :=
  "Combine these bullets into a complete structured summary. "
  +:+ "Your output MUST strictly follow the provided JSON schema. "
  +:+ "The summary should be a paragraph combining all key points. "
  +:+ "The 'bullets' field should be a consolidated list of the most important takeaways from all chunks."
  +:+ nl +:+ nl +:+ "Source Bullet Points:" +:+ nl +:+ combinedBullets.

(** The body of the loop of step 1: one entry is pushed per chunk. *)
Definition summarizeChunk (i total : nat) (section : string) (partials : list string)
  : M (list string) :=
  tryCatch
    (do text <- await (GenerateText (chunkPrompt i total section))
                   (fun h => generate env h (chunkPrompt i total section));
     if Js.truthy text then ret (partials ++ [text]) else ret (partials ++ [""]))
    (ret (partials ++ [""])).

(** [for (const [i, section] of parts.entries())], from index [i]. *)
Fixpoint summarizeChunks (total i : nat) (sections : list string) (partials : list string)
  : M (list string) :=
  match sections with
  | [] => ret partials
  | section :: rest =>
      do partials' <- summarizeChunk i total section partials;
      summarizeChunks total (S i) rest partials'
  end.

Definition combine (partials : list string) : string :=
  Js.join nl (List.filter Js.truthy partials).

(** Step 2. *)
Definition finalSummary (combinedBullets : string) : M SummaryResult :=
  tryCatch
    (do output <- await (GenerateStructured (finalPrompt combinedBullets))
                     (fun h => generateOutput env h (finalPrompt combinedBullets));
     match output with
     | Some result => ret result
     | None => ret noFinalOutput
     end)
    (ret generationError).

(** Steps 1 and 2 on the chunks [parts] (the flow from [const partials]
    to its end). *)
Definition summarizeParts (parts : list string) : M SummaryResult :=
  do partials <- summarizeChunks (length parts) 0 parts [];
  let combinedBullets := combine partials in
  if negb (Js.truthy combinedBullets) then ret allChunksFailed
  else finalSummary combinedBullets.

Definition summarizeYouTube (urlOrId : string) : M SummaryResult :=
  let videoId := extractVideoId (parseURL env) urlOrId in
  if absent videoId then ret invalidReference
  else
    do transcript <- fetchTranscript (default "" videoId);
    if absent transcript then ret transcriptUnavailable
    else
      let parts := chunk (default "" transcript) 6500 in
      match parts with
      | [] => ret emptyTranscript
      | _ :: _ => summarizeParts parts
      end.

End Flow.

(** ** The flow as defined

    [ai.defineFlow({ inputSchema, outputSchema }, handler)]: the input is
    parsed with [inputSchema] before the handler runs, and a failed parse
    throws to the caller. The handler is [summarizeYouTube] above. Its
    results are records of the output schema, so the check of
    [outputSchema] never fails on them. *)

(** [throw] *)
Definition raise {A} : M A := fun h => (Raised, h).

(** [z.object({ urlOrId: z.string().min(1) })] on a string. *)
Definition inputSchema (urlOrId : string) : bool :=
  (1 <=? String.length urlOrId)%nat.

Definition summarizeYouTubeFlow (env : Env) (urlOrId : string) : M SummaryResult :=
  if inputSchema urlOrId then summarizeYouTube env urlOrId else raise.

(** ** The rate limiter *)

Definition WINDOW_MS : Z := 30000.
Definition MAX_REQ : nat := 15.

(** The identity of the client: the first token of [x-forwarded-for], else
    [req.ip], else ["unknown"]. *)
Definition clientIp (forwardedFor reqIp : option string) : string :=
  let first :=
    match forwardedFor with
    | Some v => Js.trim (hd "" (Js.splitOn "," v))
    | None => ""
    end in
  if Js.truthy first then first
  else if negb (absent reqIp) then default "" reqIp
  else "unknown".

Inductive Verdict : Type :=
| Next        (* next() *)
| Reject429.  (* res.status(429).json({ error: "Too many requests" }) *)

(** [hits.get(ip) ?? []]: the timestamps recorded for [ip]. *)
Definition window (hits : gmap string (list Z)) (ip : string) : list Z :=
  default [] (hits !! ip).

(** The middleware on a request of [ip] at time [now]. *)
Definition rateLimit (ip : string) (now : Z) (hits : gmap string (list Z))
  : Verdict * gmap string (list Z) :=
  let arr := filter (fun t => (now - t < WINDOW_MS)%Z) (window hits ip) ++ [now] in
  let hits' := <[ip := arr]> hits in
  if (MAX_REQ <? length arr)%nat then (Reject429, hits') else (Next, hits').

(** A sequence of requests, oldest first; the decisions in the same order. *)
Fixpoint serve (reqs : list (string * Z)) (hits : gmap string (list Z))
  : list Verdict * gmap string (list Z) :=
  match reqs with
  | [] => ([], hits)
  | (ip, now) :: rest =>
      let '(d, hits') := rateLimit ip now hits in
      let '(ds, hits'') := serve rest hits' in
      (d :: ds, hits'')
  end.

(** ** Definitions used to state the properties *)

(** The loop of [chunk] read from the front: the chunks still to come from
    buffer [b] and the remaining [pieces]. *)
Fixpoint chunkFrom (maxLen : nat) (b : string) (pieces : list string) : list string :=
  match pieces with
  | [] => if Js.truthy (Js.trim b) then [Js.trim b] else []
  | piece :: rest =>
      if (maxLen <? String.length (b +:+ " " +:+ piece))%nat then
        Js.trim b :: chunkFrom maxLen piece rest
      else
        chunkFrom maxLen (b +:+ (if Js.truthy b then " " else "") +:+ piece) rest
  end.

(** The white-space-delimited words of a string, in order. [tokens] cuts at
    every white space code unit; the head of its result is the word in
    progress. *)
Fixpoint tokens (s : string) : list string :=
  match s with
  | EmptyString => [EmptyString]
  | String c s' =>
      if Js.isSpace c then EmptyString :: tokens s' else Js.consHead c (tokens s')
  end.

Definition words (s : string) : list string := List.filter Js.truthy (tokens s).

Definition headTok (s : string) : string := hd "" (tokens s).
Definition restToks (s : string) : list string := List.filter Js.truthy (tl (tokens s)).

(** Chunks put back together with the given separators between them. *)
Fixpoint rejoin (chunks seps : list string) : string :=
  match chunks with
  | [] => ""
  | [c] => c
  | c :: cs =>
      match seps with
      | sep :: seps' => c +:+ sep +:+ rejoin cs seps'
      | [] => c +:+ rejoin cs []
      end
  end.

Definition blank (s : string) : bool := Js.allb Js.isSpace s.

(** The chunks of [text] can be re-joined into [text] with white space:
    some white space separators between the chunks, and white space before
    and after, give back the input. *)
Definition lossless (text : string) (maxLen : nat) : Prop :=
  exists (before after : string) (seps : list string),
    blank before = true /\ blank after = true
    /\ Forall (fun sep => blank sep = true) seps
    /\ before +:+ rejoin (chunk text maxLen) seps +:+ after = text.

(** The buffer after [pieces] have been appended to [b] with no flush. *)
Definition joinInto (b : string) (pieces : list string) : string :=
  fold_left (fun b piece => b +:+ (if Js.truthy b then " " else "") +:+ piece) pieces b.

(** The text with the white space around it removed and every separator
    run (the white space after a terminator) replaced by one space. *)
Definition normalize (text : string) : string :=
  Js.trim (joinInto "" (splitSentences text)).

(** Every separator run met while scanning [s] from state [st] is exactly
    one space, followed by a code unit that is not white space. *)
Fixpoint singleSpaced (st : Scan) (s : string) : bool :=
  match s with
  | EmptyString => match st with InSep => false | _ => true end
  | String c s' =>
      match st, Js.isSpace c with
      | InSep, true => false
      | AfterTerm, true => Ascii.eqb c " " && singleSpaced InSep s'
      | _, _ => singleSpaced (scanAfter c) s'
      end
  end.

(** A text already in the form the chunker writes: not empty, no white
    space around it, one space after each sentence. *)
Definition chunkShaped (text : string) : bool :=
  Js.truthy text && String.eqb (Js.trim text) text && singleSpaced Plain text.

(** The room the pieces take in a buffer: each with the space before it. *)
Definition room (pieces : list string) : nat :=
  fold_right (fun piece n => S (String.length piece) + n)%nat 0%nat pieces.

(** The step 2 calls of a log. *)
Definition isStage2 (c : Call) : bool :=
  match c with
  | GenerateStructured _ => true
  | _ => false
  end.

Definition stage2Calls (calls : list Call) : list Call := List.filter isStage2 calls.

(** The entries step 1 pushes for [sections], the first of them at index
    [i], when the log is [h]: the text answered for each chunk in turn, empty
    when the call throws. *)
Fixpoint answers (env : Env) (total i : nat) (sections : list string) (h : list Call)
  : list string :=
  match sections with
  | [] => []
  | section :: rest =>
      match generate env h (chunkPrompt i total section) with
      | Gave text => text
      | Threw => ""
      end :: answers env total (S i) rest (h ++ [GenerateText (chunkPrompt i total section)])
  end.

(** The prompts of step 1 for [sections], the first of them at index [i]. *)
Fixpoint prompts (total i : nat) (sections : list string) : list string :=
  match sections with
  | [] => []
  | section :: rest => chunkPrompt i total section :: prompts total (S i) rest
  end.

(** The tier of the acquirer failed or returned no cue. *)
Definition noCues (r : Ext (list string)) : Prop := r = Threw \/ r = Gave [].

(** The terminal states of the flow. *)
Inductive Terminal : Type :=
| InvalidReference
| TranscriptUnavailable
| EmptyTranscript
| AllChunksFailed
| ReductionFailed
| Success.

(** The flow on [urlOrId] from log [h] gets as far as step 1 with chunks
    [parts] at log [h1]. *)
Definition reachesChunks (env : Env) (urlOrId : string) (h : list Call)
    (parts : list string) (h1 : list Call) : Prop :=
  exists videoId transcript,
    extractVideoId (parseURL env) urlOrId = Some videoId
    /\ Js.truthy videoId = true
    /\ fetchTranscript env videoId h = (Returned (Some transcript), h1)
    /\ Js.truthy transcript = true
    /\ parts = chunk transcript 6500.

(** The flow gets as far as step 2 with the combined text [combined] at log
    [h2]. *)
Definition reachesReduction (env : Env) (urlOrId : string) (h : list Call)
    (combined : string) (h2 : list Call) : Prop :=
  exists parts h1 partials,
    reachesChunks env urlOrId h parts h1
    /\ parts <> []
    /\ summarizeChunks env (length parts) 0 parts [] h1 = (Returned partials, h2)
    /\ combined = combine partials
    /\ Js.truthy combined = true.

(** [Ends env urlOrId h st r]: the flow on [urlOrId] from log [h] ends in
    state [st] with result [r]. *)
Inductive Ends (env : Env) (urlOrId : string) (h : list Call)
  : Terminal -> SummaryResult -> Prop :=
| ends_invalid :
    absent (extractVideoId (parseURL env) urlOrId) = true ->
    Ends env urlOrId h InvalidReference invalidReference
| ends_unavailable videoId transcript h1 :
    extractVideoId (parseURL env) urlOrId = Some videoId ->
    Js.truthy videoId = true ->
    fetchTranscript env videoId h = (Returned transcript, h1) ->
    absent transcript = true ->
    Ends env urlOrId h TranscriptUnavailable transcriptUnavailable
| ends_empty h1 :
    reachesChunks env urlOrId h [] h1 ->
    Ends env urlOrId h EmptyTranscript emptyTranscript
| ends_chunks_failed parts h1 partials h2 :
    reachesChunks env urlOrId h parts h1 ->
    parts <> [] ->
    summarizeChunks env (length parts) 0 parts [] h1 = (Returned partials, h2) ->
    Js.truthy (combine partials) = false ->
    Ends env urlOrId h AllChunksFailed allChunksFailed
| ends_reduction_threw combined h2 :
    reachesReduction env urlOrId h combined h2 ->
    generateOutput env h2 (finalPrompt combined) = Threw ->
    Ends env urlOrId h ReductionFailed generationError
| ends_reduction_none combined h2 :
    reachesReduction env urlOrId h combined h2 ->
    generateOutput env h2 (finalPrompt combined) = Gave None ->
    Ends env urlOrId h ReductionFailed noFinalOutput
| ends_success combined h2 result :
    reachesReduction env urlOrId h combined h2 ->
    generateOutput env h2 (finalPrompt combined) = Gave (Some result) ->
    Ends env urlOrId h Success result.

(** An environment for the examples: captions in English only, a backend
    that answers every chunk and returns a final summary. *)
Definition demoSummary : SummaryResult :=
  {| title := "Demo"; summary := "A demo."; bullets := ["one"; "two"]; warnings := None |}.

Definition demoEnv : Env :=
  {| parseURL := exampleURL;
     YOUTUBE_API_KEY := None;
     captions := fun _ _ lang =>
       match lang with
       | Some _ => Gave ["Hello world."; "Bye."]
       | None => Threw
       end;
     metadata := fun _ _ => Threw;
     generate := fun _ _ => Gave "- a point";
     generateOutput := fun _ _ => Gave (Some demoSummary) |}.

(** The same with a backend whose text generation always throws. *)
Definition failingEnv : Env :=
  {| parseURL := exampleURL;
     YOUTUBE_API_KEY := None;
     captions := captions demoEnv;
     metadata := metadata demoEnv;
     generate := fun _ _ => Threw;
     generateOutput := generateOutput demoEnv |}.

(** No captions and no API key. *)
Definition noCaptionsEnv : Env :=
  {| parseURL := exampleURL;
     YOUTUBE_API_KEY := None;
     captions := fun _ _ _ => Gave [];
     metadata := metadata demoEnv;
     generate := generate demoEnv;
     generateOutput := generateOutput demoEnv |}.

(** One caption cue holding a single space. *)
Definition blankCaptionsEnv : Env :=
  {| parseURL := exampleURL;
     YOUTUBE_API_KEY := None;
     captions := fun _ _ _ => Gave [" "];
     metadata := metadata demoEnv;
     generate := generate demoEnv;
     generateOutput := generateOutput demoEnv |}.

(** A backend whose schema-constrained generation throws. *)
Definition throwingReductionEnv : Env :=
  {| parseURL := exampleURL;
     YOUTUBE_API_KEY := None;
     captions := captions demoEnv;
     metadata := metadata demoEnv;
     generate := generate demoEnv;
     generateOutput := fun _ _ => Threw |}.

(** The window of one identity after a request at [now]. *)
Definition slide (w : list Z) (now : Z) : list Z :=
  filter (fun t => (now - t < WINDOW_MS)%Z) w ++ [now].

(** The times of the requests of [ip] in a sequence of requests. *)
Definition timesOf (ip : string) (reqs : list (string * Z)) : list Z :=
  map snd (filter (fun r => fst r = ip) reqs).

(** Any two of the times are less than the window apart. *)
Definition withinWindow (ts : list Z) : Prop :=
  Forall (fun t => Forall (fun t' => (t' - t < WINDOW_MS)%Z) ts) ts.

(** Fifteen requests of one client at time 0 and fifteen more one second
    later. *)
Definition burst : list (string * Z) :=
  map (fun _ => ("10.0.0.1", 0%Z)) (seq 0 15) ++ map (fun _ => ("10.0.0.1", 1000%Z)) (seq 0 15).

(** Every element but the last is not blank. *)
Fixpoint innerNonblank (l : list string) : bool :=
  match l with
  | [] => true
  | [_] => true
  | x :: rest => negb (blank x) && innerNonblank rest
  end.

(** The calls of the transcript acquirer. *)
Definition isAcquisition (c : Call) : bool :=
  match c with
  | FetchCaptions _ _ | GetMetadata _ => true
  | _ => false
  end.

(** English captions made of one cue with an empty text. *)
Definition emptyCueEnv : Env :=
  {| parseURL := exampleURL;
     YOUTUBE_API_KEY := Some "key";
     captions := fun _ _ _ => Gave [""];
     metadata := fun _ _ => Gave (Some ("A title", "A description"));
     generate := generate demoEnv;
     generateOutput := generateOutput demoEnv |}.

(** A result that reports a failure. *)
Definition failureResult (r : SummaryResult) : Prop :=
  bullets r = []
  /\ Js.truthy (title r) = true /\ Js.truthy (summary r) = true
  /\ exists w, warnings r = Some [w] /\ Js.truthy w = true.

(** What the middleware reads of a request: the [x-forwarded-for] header
    and [req.ip], either of which may be missing. *)
Record Request : Type := mkRequest {
  forwardedFor : option string;
  reqIp : option string
}.

(** The [ip] of the middleware. *)
Definition identity (req : Request) : string := clientIp (forwardedFor req) (reqIp req).

(** The middleware on a sequence of requests with their arrival times. *)
Definition serveRequests (reqs : list (Request * Z)) (hits : gmap string (list Z))
  : list Verdict * gmap string (list Z) :=
  serve (map (fun r => (identity (fst r), snd r)) reqs) hits.

Definition noComma (s : string) : bool := Js.allb (fun c => negb (Ascii.eqb c ",")) s.

(** Twenty requests from one address at the same instant, each with its own
    forwarded-for header. *)
Definition spoofed : list (Request * Z) :=
  map (fun n => ({| forwardedFor := Some (Js.ofNat n); reqIp := Some "10.0.0.1" |}, 0%Z))
      (seq 0 20).

(** ** The display client

    The component of the browser client, in its version with the [loading]
    signal. A signal is a cell; [set] replaces its value at once. The POST of
    [clickSummarize] completes later, with the [next] or the [error]
    callback of the subscription; the world keeps the number of requests in
    flight and the bodies sent. *)

Module App.

(** The value of the [summary] signal; a field read with [r?.x] is [None]
    when it is undefined. *)
Record Display : Type := mkDisplay {
  shownTitle : option string;
  shownBullets : option (list string);
  shownSummary : option string
}.

Record State : Type := mkState {
  summarySignal : Display;
  loading : string;
  videoUrl : string
}.

Definition cleared : Display :=
  {| shownTitle := Some ""; shownBullets := Some []; shownSummary := Some "" |}.

Definition initial : State :=
  {| summarySignal := cleared; loading := ""; videoUrl := "" |}.

Definition pleaseWait : string :=
  "Please wait! I am preparing the summary of the youtube video...".

(** [const r = response?.result] and the three [r?.x]. *)
Definition display (response : option (option SummaryResult)) : Display :=
  match response with
  | Some (Some r) =>
      {| shownTitle := Some (title r);
         shownBullets := Some (bullets r);
         shownSummary := Some (summary r) |}
  | _ => {| shownTitle := None; shownBullets := None; shownSummary := None |}
  end.

Inductive Event : Type :=
| Edit (url : string)                                  (* the user types in the field *)
| Click                                                (* clickSummarize() *)
| Next (response : option (option SummaryResult))      (* next: of a request in flight *)
| Error.                                               (* error: of a request in flight *)

Record World : Type := mkWorld {
  app : State;
  inFlight : nat;
  sent : list string
}.

Definition start : World := {| app := initial; inFlight := 0; sent := [] |}.

(** One event; [None] when a callback is run with no request in flight. *)
Definition step (w : World) (e : Event) : option World :=
  match e with
  | Edit url =>
      Some {| app := {| summarySignal := summarySignal (app w);
                        loading := loading (app w);
                        videoUrl := url |};
              inFlight := inFlight w; sent := sent w |}
  | Click =>
      Some {| app := {| summarySignal := cleared;
                        loading := pleaseWait;
                        videoUrl := videoUrl (app w) |};
              inFlight := S (inFlight w);
              sent := sent w ++ [videoUrl (app w)] |}
  | Next response =>
      match inFlight w with
      | O => None
      | S n =>
          Some {| app := {| summarySignal := display response;
                            loading := "";
                            videoUrl := videoUrl (app w) |};
                  inFlight := n; sent := sent w |}
      end
  | Error =>
      match inFlight w with
      | O => None
      | S n =>
          Some {| app := {| summarySignal := summarySignal (app w);
                            loading := "";
                            videoUrl := videoUrl (app w) |};
                  inFlight := n; sent := sent w |}
      end
  end.

Fixpoint run (w : World) (events : list Event) : option World :=
  match events with
  | [] => Some w
  | e :: rest =>
      match step w e with
      | Some w' => run w' rest
      | None => None
      end
  end.

(** While the wait message shows, a request is in flight and the summary
    shown is the cleared one. *)
Definition busyInvariant (w : World) : Prop :=
  loading (app w) = ""
  \/ ((0 < inFlight w)%nat /\ summarySignal (app w) = cleared).

End App.

(** * Properties *)

(** ** Strings *)

Lemma str_app_cons (c : ascii) (a b : string) : String c a +:+ b = String c (a +:+ b).
Proof. reflexivity. Qed.

Lemma str_app_nil_l (a : string) : "" +:+ a = a.
Proof. reflexivity. Qed.

Lemma str_length_app (a b : string) :
  String.length (a +:+ b) = (String.length a + String.length b)%nat.
Proof.
  induction a as [|x a IH]; [reflexivity |].
  rewrite str_app_cons. simpl. now rewrite IH.
Qed.

Lemma str_app_nil_r (a : string) : a +:+ "" = a.
Proof.
  induction a as [|x a IH]; [reflexivity |].
  rewrite str_app_cons. now rewrite IH.
Qed.

Lemma str_app_assoc (a b c : string) : (a +:+ b) +:+ c = a +:+ (b +:+ c).
Proof.
  induction a as [|x a IH]; [reflexivity |].
  rewrite !str_app_cons. now rewrite IH.
Qed.

Lemma trimStart_length (s : string) : (String.length (Js.trimStart s) <= String.length s)%nat.
Proof.
  induction s as [|c s IH]; simpl; [lia |].
  destruct (Js.isSpace c); simpl; lia.
Qed.

Lemma trimEnd_length (s : string) : (String.length (Js.trimEnd s) <= String.length s)%nat.
Proof.
  induction s as [|c s IH]; simpl; [lia |].
  destruct (Js.trimEnd s) eqn:E; [destruct (Js.isSpace c) |]; simpl in *; lia.
Qed.

Lemma trim_length (s : string) : (String.length (Js.trim s) <= String.length s)%nat.
Proof.
  unfold Js.trim. etransitivity; [apply trimEnd_length | apply trimStart_length].
Qed.

(** ** The loop of chunk *)

Lemma chunk_loop (maxLen : nat) (pieces : list string) (st : ChunkState) :
  chunkFinish (fold_left (chunkStep maxLen) pieces st)
  = parts st ++ chunkFrom maxLen (buf st) pieces.
Proof.
  revert st. induction pieces as [|piece rest IH]; intros st; simpl.
  - unfold chunkFinish. destruct (Js.truthy (Js.trim (buf st))); [reflexivity |].
    now rewrite List.app_nil_r.
  - rewrite IH. unfold chunkStep.
    destruct (maxLen <? String.length (buf st +:+ " " +:+ piece))%nat; simpl.
    + now rewrite <- List.app_assoc.
    + reflexivity.
Qed.

Lemma chunk_chunkFrom (text : string) (maxLen : nat) :
  chunk text maxLen = chunkFrom maxLen "" (splitSentences text).
Proof. unfold chunk. now rewrite chunk_loop. Qed.

Lemma splitFrom_cons (st : Scan) (s : string) :
  exists p ps, splitFrom st s = p :: ps.
Proof.
  revert st. induction s as [|c s IH]; intros st; simpl; [eauto |].
  destruct st, (Js.isSpace c); eauto;
    match goal with
    | |- context [splitFrom ?st' s] =>
        destruct (IH st') as (p & ps & ->); simpl; eauto
    end.
Qed.

(** ** Chunk sizes *)

Lemma chunkFrom_bound (maxLen : nat) (all : list string) (pieces : list string) (b : string) :
  (String.length b <= maxLen)%nat \/ List.In b all ->
  (forall p, List.In p pieces -> List.In p all) ->
  forall c, List.In c (chunkFrom maxLen b pieces) ->
    (String.length c <= maxLen)%nat
    \/ exists p, List.In p all /\ c = Js.trim p /\ (maxLen < String.length p)%nat.
Proof.
  revert b. induction pieces as [|piece rest IH]; intros b Hb Hall c Hc; simpl in Hc.
  - assert (Hc' : c = Js.trim b).
    { destruct (Js.truthy (Js.trim b)); simpl in Hc;
      [destruct Hc as [Hc | []]; now symmetry | contradiction]. }
    subst c. pose proof (trim_length b) as Ht.
    destruct Hb as [Hb | Hb]; [left; lia |].
    destruct (Nat.le_gt_cases (String.length (Js.trim b)) maxLen); [now left |].
    right. exists b. repeat split; [assumption | lia].
  - destruct (maxLen <? String.length (b +:+ " " +:+ piece))%nat eqn:E.
    + destruct Hc as [<- | Hc].
      * pose proof (trim_length b) as Ht.
        destruct Hb as [Hb | Hb]; [left; lia |].
        destruct (Nat.le_gt_cases (String.length (Js.trim b)) maxLen); [now left |].
        right. exists b. repeat split; [assumption | lia].
      * apply (IH piece); [right; apply Hall; now left | | assumption].
        intros p Hp. apply Hall. now right.
    + apply Nat.ltb_ge in E. rewrite !str_length_app in E. simpl in E.
      apply (IH (b +:+ (if Js.truthy b then " " else "") +:+ piece)); [| | assumption].
      * left. rewrite !str_length_app. destruct (Js.truthy b); simpl; lia.
      * intros p Hp. apply Hall. now right.
Qed.

(** ** Words *)

Lemma blank_cons (c : ascii) (s : string) : blank (String c s) = Js.isSpace c && blank s.
Proof. reflexivity. Qed.

Lemma tokens_cons (s : string) : exists t ts, tokens s = t :: ts.
Proof.
  induction s as [|c s (t & ts & IH)]; simpl; [eauto |].
  destruct (Js.isSpace c); [eauto |]. rewrite IH. simpl. eauto.
Qed.

Lemma words_head_rest (s : string) :
  words s = (if Js.truthy (headTok s) then [headTok s] else []) ++ restToks s.
Proof.
  unfold words, headTok, restToks.
  destruct (tokens_cons s) as (t & ts & ->). simpl.
  destruct (Js.truthy t); reflexivity.
Qed.

Lemma headTok_cons (c : ascii) (s : string) :
  headTok (String c s) = if Js.isSpace c then "" else String c (headTok s).
Proof.
  unfold headTok. simpl. destruct (Js.isSpace c); [reflexivity |].
  destruct (tokens_cons s) as (t & ts & ->). reflexivity.
Qed.

Lemma restToks_cons (c : ascii) (s : string) :
  restToks (String c s) = if Js.isSpace c then words s else restToks s.
Proof.
  unfold restToks, words. simpl. destruct (Js.isSpace c); [reflexivity |].
  destruct (tokens_cons s) as (t & ts & ->). reflexivity.
Qed.

Lemma words_space_cons (c : ascii) (s : string) :
  Js.isSpace c = true -> words (String c s) = words s.
Proof. intros H. unfold words. simpl. now rewrite H. Qed.

Lemma tokens_app_space (a b : string) (c : ascii) :
  Js.isSpace c = true -> tokens (a +:+ String c b) = tokens a ++ tokens b.
Proof.
  intros Hc. induction a as [|x a IH].
  - rewrite str_app_nil_l. simpl. now rewrite Hc.
  - rewrite str_app_cons. simpl. rewrite IH.
    destruct (Js.isSpace x); [reflexivity |].
    destruct (tokens_cons a) as (t & ts & ->). reflexivity.
Qed.

Lemma words_app_space (a b : string) (c : ascii) :
  Js.isSpace c = true -> words (a +:+ String c b) = words a ++ words b.
Proof.
  intros Hc. unfold words. rewrite tokens_app_space by assumption.
  apply List.filter_app.
Qed.

Lemma words_blank (ws : string) : blank ws = true -> words ws = [].
Proof.
  induction ws as [|c ws IH]; simpl; [reflexivity |].
  intros [Hc Hws]%andb_prop. rewrite words_space_cons by assumption. auto.
Qed.

Lemma words_nil_blank (s : string) : words s = [] -> blank s = true.
Proof.
  induction s as [|c s IH]; [reflexivity |].
  change (blank (String c s)) with (Js.isSpace c && blank s).
  rewrite words_head_rest, headTok_cons, restToks_cons.
  destruct (Js.isSpace c); simpl; [| discriminate].
  exact IH.
Qed.

Lemma words_blank_l (ws s : string) : blank ws = true -> words (ws +:+ s) = words s.
Proof.
  induction ws as [|c ws IH]; simpl; [reflexivity |].
  intros [Hc Hws]%andb_prop. rewrite str_app_cons, words_space_cons by assumption. auto.
Qed.

Lemma words_blank_r (s ws : string) : blank ws = true -> words (s +:+ ws) = words s.
Proof.
  destruct ws as [|c ws]; simpl; [now rewrite str_app_nil_r |].
  intros [Hc Hws]%andb_prop. rewrite words_app_space by assumption.
  rewrite (words_blank ws) by assumption. apply List.app_nil_r.
Qed.

Lemma trimStart_split (s : string) :
  exists ws, blank ws = true /\ s = ws +:+ Js.trimStart s.
Proof.
  induction s as [|c s (ws & Hws & IH)]; simpl; [exists ""; auto |].
  destruct (Js.isSpace c) eqn:Hc.
  - exists (String c ws). rewrite blank_cons, Hc, Hws, str_app_cons, <- IH. auto.
  - exists "". auto.
Qed.

Lemma trimEnd_split (s : string) :
  exists ws, blank ws = true /\ s = Js.trimEnd s +:+ ws.
Proof.
  induction s as [|c s (ws & Hws & IH)]; simpl; [exists ""; auto |].
  destruct (Js.trimEnd s) as [|d t] eqn:E.
  - rewrite str_app_nil_l in IH. subst ws.
    destruct (Js.isSpace c) eqn:Hc.
    + exists (String c s). rewrite blank_cons, Hc, Hws. auto.
    + exists s. auto.
  - exists ws. split; [assumption |]. rewrite str_app_cons. now rewrite <- IH.
Qed.

Lemma words_trim (s : string) : words (Js.trim s) = words s.
Proof.
  unfold Js.trim.
  destruct (trimStart_split s) as (ws1 & H1 & E1).
  destruct (trimEnd_split (Js.trimStart s)) as (ws2 & H2 & E2).
  rewrite E1 at 2. rewrite words_blank_l by assumption.
  rewrite E2 at 2. now rewrite words_blank_r by assumption.
Qed.

Lemma trimStart_blank (s : string) : blank s = true -> Js.trimStart s = "".
Proof.
  induction s as [|c s IH]; simpl; [reflexivity |].
  intros [Hc Hs]%andb_prop. rewrite Hc. auto.
Qed.

Lemma trim_truthy (s : string) : Js.truthy (Js.trim s) = negb (blank s).
Proof.
  destruct (blank s) eqn:Hb; simpl.
  - unfold Js.trim. now rewrite trimStart_blank.
  - destruct (Js.trim s) eqn:E; [| reflexivity].
    pose proof (words_trim s) as Hw. rewrite E in Hw.
    symmetry in Hw. apply words_nil_blank in Hw. congruence.
Qed.

(** The split keeps the words: only white space is dropped between pieces. *)
Lemma splitFrom_words (s : string) :
  forall st,
    match st with
    | InSep => words s = concat (map words (splitFrom InSep s))
    | _ =>
        headTok s = headTok (hd "" (splitFrom st s))
        /\ restToks s
           = restToks (hd "" (splitFrom st s)) ++ concat (map words (tl (splitFrom st s)))
    end.
Proof.
  induction s as [|c s IH]; intros st.
  - destruct st; simpl; auto.
  - assert (Hcons : headTok (String c s)
                    = headTok (hd "" (Js.consHead c (splitFrom (scanAfter c) s)))
                    /\ restToks (String c s)
                       = restToks (hd "" (Js.consHead c (splitFrom (scanAfter c) s)))
                         ++ concat (map words (tl (Js.consHead c (splitFrom (scanAfter c) s))))).
    { assert (IH' := IH (scanAfter c)).
      destruct (splitFrom_cons (scanAfter c) s) as (p & ps & E). rewrite E in *. simpl in *.
      assert (Hw : words s = words p ++ concat (map words ps)).
      { rewrite (words_head_rest s), (words_head_rest p).
        unfold scanAfter in IH'. destruct (Js.isTerminal c);
          destruct IH' as [-> ->]; now rewrite <- List.app_assoc. }
      rewrite !headTok_cons, !restToks_cons.
      unfold scanAfter in IH'.
      destruct (Js.isTerminal c); destruct IH' as [-> ->];
        (split; [reflexivity |]); destruct (Js.isSpace c); auto;
        rewrite Hw, (words_head_rest p); now rewrite <- List.app_assoc. }
    assert (Hsep : Js.isSpace c = true ->
                   words (String c s) = concat (map words (splitFrom InSep s))).
    { intros Hc. rewrite words_space_cons by assumption. exact (IH InSep). }
    destruct st; simpl; destruct (Js.isSpace c) eqn:Hc; try exact Hcons.
    + cbn [hd tl]. split; [now rewrite headTok_cons, Hc |].
      rewrite restToks_cons, Hc. rewrite <- Hsep by reflexivity.
      now rewrite words_space_cons.
    + now apply Hsep.
    + destruct Hcons as [Hh Hr].
      destruct (Js.consHead c (splitFrom (scanAfter c) s)) as [|p ps] eqn:E.
      { destruct (splitFrom_cons (scanAfter c) s) as (p & ps & E').
        rewrite E' in E. discriminate. }
      simpl in *. rewrite (words_head_rest (String c s)), (words_head_rest p).
      rewrite Hh, Hr. now rewrite <- List.app_assoc.
Qed.

Lemma splitSentences_words (text : string) :
  concat (map words (splitSentences text)) = words text.
Proof.
  unfold splitSentences. pose proof (splitFrom_words text Plain) as [Hh Hr].
  destruct (splitFrom_cons Plain text) as (p & ps & E). rewrite E in *. simpl in *.
  rewrite (words_head_rest text), (words_head_rest p), Hh, Hr.
  now rewrite <- List.app_assoc.
Qed.

(** The split loses nothing but the separators: the pieces, put back
    together with the white space runs that were dropped, give the text. *)
Lemma rejoin_consHead (c : ascii) (l seps : list string) :
  l <> [] -> rejoin (Js.consHead c l) seps = String c (rejoin l seps).
Proof.
  destruct l as [|p [|q r]]; [congruence | reflexivity |].
  intros _. destruct seps; reflexivity.
Qed.

Lemma splitFrom_rejoin (s : string) :
  forall st,
    exists ws seps,
      blank ws = true
      /\ List.Forall (fun sep => blank sep = true /\ Js.truthy sep = true) seps
      /\ s = ws +:+ rejoin (splitFrom st s) seps
      /\ (st <> InSep -> ws = "").
Proof.
  induction s as [|c s IH]; intros st.
  - exists "", []. repeat split; auto.
  - assert (Hcons : exists ws seps,
               blank ws = true
               /\ List.Forall (fun sep => blank sep = true /\ Js.truthy sep = true) seps
               /\ String c s = ws +:+ rejoin (Js.consHead c (splitFrom (scanAfter c) s)) seps
               /\ ws = "").
    { destruct (IH (scanAfter c)) as (ws & seps & _ & Hseps & E & Hws).
      rewrite Hws in E by (unfold scanAfter; destruct (Js.isTerminal c); discriminate).
      exists "", seps. repeat split; auto.
      rewrite str_app_nil_l, rejoin_consHead.
      - now rewrite str_app_nil_l in E; rewrite <- E.
      - destruct (splitFrom_cons (scanAfter c) s) as (p & ps & ->). discriminate. }
    assert (Hany : exists ws seps,
               blank ws = true
               /\ List.Forall (fun sep => blank sep = true /\ Js.truthy sep = true) seps
               /\ String c s = ws +:+ rejoin (Js.consHead c (splitFrom (scanAfter c) s)) seps
               /\ (st <> InSep -> ws = "")).
    { destruct Hcons as (ws & seps & ? & ? & ? & ?). exists ws, seps. auto. }
    simpl. destruct st, (Js.isSpace c) eqn:Hc; try exact Hany.
    + destruct (IH InSep) as (ws & seps & Hws & Hseps & E & _).
      exists "", (String c ws :: seps). repeat split; auto.
      * constructor; [| assumption]. rewrite blank_cons, Hc, Hws. auto.
      * destruct (splitFrom_cons InSep s) as (p & ps & Ep). rewrite Ep in *.
        rewrite str_app_nil_l.
        change (rejoin ("" :: p :: ps) (String c ws :: seps))
          with (String c (ws +:+ rejoin (p :: ps) seps)).
        now rewrite <- E.
    + destruct (IH InSep) as (ws & seps & Hws & Hseps & E & _).
      exists (String c ws), seps. repeat split; auto.
      * rewrite blank_cons, Hc, Hws. auto.
      * rewrite str_app_cons. now rewrite <- E.
      * congruence.
Qed.

Lemma splitSentences_rejoin (text : string) :
  exists seps,
    List.Forall (fun sep => blank sep = true /\ Js.truthy sep = true) seps
    /\ rejoin (splitSentences text) seps = text.
Proof.
  destruct (splitFrom_rejoin text Plain) as (ws & seps & _ & Hseps & E & Hws).
  rewrite Hws, str_app_nil_l in E by discriminate. exists seps. auto.
Qed.

Lemma chunkFrom_words (maxLen : nat) (pieces : list string) :
  forall b, concat (map words (chunkFrom maxLen b pieces))
            = words b ++ concat (map words pieces).
Proof.
  induction pieces as [|piece rest IH]; intros b; simpl.
  - rewrite trim_truthy. destruct (blank b) eqn:Hb; simpl.
    + now rewrite words_blank.
    + now rewrite words_trim.
  - destruct (maxLen <? String.length (b +:+ " " +:+ piece))%nat; simpl.
    + now rewrite words_trim, IH.
    + rewrite IH. destruct b as [|x b]; simpl; [reflexivity |].
      rewrite str_app_cons. change (String x (b +:+ " " +:+ piece))
        with (String x b +:+ String " " piece).
      rewrite words_app_space by reflexivity. now rewrite <- List.app_assoc.
Qed.

(** ** Texts shorter than the maximum *)

Lemma room_consHead (c : ascii) (l : list string) :
  l <> [] -> room (Js.consHead c l) = S (room l).
Proof. destruct l; [congruence | reflexivity]. Qed.

Lemma splitFrom_room (s : string) :
  forall st, (room (splitFrom st s) <= S (String.length s))%nat.
Proof.
  induction s as [|c s IH]; intros st; simpl; [lia |].
  assert (Hcons : (room (Js.consHead c (splitFrom (scanAfter c) s))
                   <= S (S (String.length s)))%nat).
  { rewrite room_consHead.
    - specialize (IH (scanAfter c)). lia.
    - destruct (splitFrom_cons (scanAfter c) s) as (p & ps & ->). discriminate. }
  destruct st, (Js.isSpace c); try exact Hcons.
  - simpl. specialize (IH InSep). lia.
  - specialize (IH InSep). lia.
Qed.

Lemma chunkFrom_fits (maxLen : nat) (pieces : list string) :
  forall b, (String.length b + room pieces <= maxLen)%nat ->
    chunkFrom maxLen b pieces
    = if Js.truthy (Js.trim (joinInto b pieces)) then [Js.trim (joinInto b pieces)] else [].
Proof.
  induction pieces as [|piece rest IH]; intros b Hb; simpl; [reflexivity |].
  simpl in Hb.
  assert (E : (maxLen <? String.length (b +:+ " " +:+ piece))%nat = false).
  { apply Nat.ltb_ge. rewrite !str_length_app. simpl. lia. }
  rewrite E. apply IH. rewrite !str_length_app. destruct (Js.truthy b); simpl; lia.
Qed.

Lemma joinInto_words (pieces : list string) :
  forall b, words (joinInto b pieces) = words b ++ concat (map words pieces).
Proof.
  induction pieces as [|piece rest IH]; intros b; simpl.
  - now rewrite List.app_nil_r.
  - unfold joinInto in *. simpl. rewrite IH.
    destruct b as [|x b]; simpl; [reflexivity |].
    rewrite str_app_cons. change (String x (b +:+ " " +:+ piece))
      with (String x b +:+ String " " piece).
    rewrite words_app_space by reflexivity. now rewrite <- List.app_assoc.
Qed.

Lemma normalize_truthy (text : string) :
  Js.truthy (normalize text) = negb (blank text).
Proof.
  unfold normalize. rewrite trim_truthy. f_equal.
  destruct (blank text) eqn:Hb.
  - apply words_nil_blank. rewrite joinInto_words, splitSentences_words. simpl.
    now apply words_blank.
  - destruct (blank (joinInto "" (splitSentences text))) eqn:Hj; [| reflexivity].
    apply words_blank in Hj. rewrite joinInto_words, splitSentences_words in Hj.
    simpl in Hj. apply words_nil_blank in Hj. congruence.
Qed.

Lemma join_consHead (c : ascii) (l : list string) :
  l <> [] -> Js.join " " (Js.consHead c l) = String c (Js.join " " l).
Proof. destruct l as [|p [|q r]]; [congruence | reflexivity | reflexivity]. Qed.

Lemma singleSpaced_join (s : string) :
  forall st, singleSpaced st s = true -> Js.join " " (splitFrom st s) = s.
Proof.
  induction s as [|c s IH]; intros st H.
  - reflexivity.
  - assert (Hcons : singleSpaced (scanAfter c) s = true ->
                    Js.join " " (Js.consHead c (splitFrom (scanAfter c) s)) = String c s).
    { intros H'. rewrite join_consHead.
      - now rewrite IH.
      - destruct (splitFrom_cons (scanAfter c) s) as (p & ps & ->). discriminate. }
    simpl in *. destruct st, (Js.isSpace c); auto; try discriminate.
    apply andb_prop in H as [Hc H]. apply Ascii.eqb_eq in Hc. subst c.
    specialize (IH InSep H).
    destruct (splitFrom_cons InSep s) as (p & ps & E). rewrite E in *.
    change (Js.join " " ("" :: p :: ps)) with (String " " (Js.join " " (p :: ps))).
    now rewrite IH.
Qed.

Lemma join_snoc_head (x p : string) (ps : list string) :
  Js.join " " ((x +:+ " " +:+ p) :: ps) = x +:+ " " +:+ Js.join " " (p :: ps).
Proof.
  destruct ps as [|q r]; [reflexivity |].
  change (Js.join " " ((x +:+ " " +:+ p) :: q :: r))
    with ((x +:+ " " +:+ p) +:+ " " +:+ Js.join " " (q :: r)).
  change (Js.join " " (p :: q :: r)) with (p +:+ " " +:+ Js.join " " (q :: r)).
  now rewrite !str_app_assoc.
Qed.

Lemma joinInto_join (pieces : list string) :
  forall b, Js.truthy b = true -> joinInto b pieces = Js.join " " (b :: pieces).
Proof.
  induction pieces as [|piece rest IH]; intros b Hb; [reflexivity |].
  unfold joinInto in *. simpl fold_left. rewrite Hb.
  rewrite IH; [apply join_snoc_head |].
  destruct b; [discriminate | reflexivity].
Qed.

Lemma chunkShaped_normalize (text : string) :
  chunkShaped text = true -> normalize text = text.
Proof.
  unfold chunkShaped, normalize, splitSentences.
  intros [[Ht Htrim]%andb_prop Hs]%andb_prop.
  apply String.eqb_eq in Htrim.
  pose proof (singleSpaced_join text Plain Hs) as Hj.
  destruct text as [|c s]; [discriminate |].
  assert (Hne : splitFrom (scanAfter c) s <> []).
  { destruct (splitFrom_cons (scanAfter c) s) as (p & ps & ->). discriminate. }
  assert (E : splitFrom Plain (String c s) = Js.consHead c (splitFrom (scanAfter c) s)).
  { simpl. now destruct (Js.isSpace c). }
  rewrite E in *.
  destruct (splitFrom (scanAfter c) s) as [|p ps]; [congruence |].
  simpl Js.consHead in *.
  change (joinInto "" (String c p :: ps)) with (joinInto (String c p) ps).
  rewrite joinInto_join by reflexivity. rewrite Hj. exact Htrim.
Qed.

(** ** The chunker: the claims *)

(** C2, as stated, fails: with two spaces after the first sentence the one
    chunk produced holds a single space, and no white space put around it
    gives the input back. *)
Lemma chunk_not_lossless : ~ lossless "a.  b." 100.
Proof.
  intros (before & after & seps & Hb & Ha & _ & E).
  change (chunk "a.  b." 100) with ["a. b."] in E. simpl rejoin in E.
  destruct before as [|x before].
  - rewrite str_app_nil_l in E. discriminate E.
  - rewrite str_app_cons in E. injection E as -> _. discriminate Hb.
Qed.

(** C2, amended: for every text and every maximum length, the chunks hold
    the white-space-delimited words of the text, all of them, in order: only
    the white space between words is not kept. *)
Theorem chunk_preserves_words (text : string) (maxLen : nat) :
  concat (map words (chunk text maxLen)) = words text.
Proof.
  rewrite chunk_chunkFrom, chunkFrom_words, splitSentences_words. reflexivity.
Qed.

Lemma chunkFrom_holds_oversized (maxLen : nat) (p : string) (rest : list string) :
  (maxLen < String.length (Js.trim p))%nat ->
  List.In (Js.trim p) (chunkFrom maxLen p rest).
Proof.
  intros Hlong. pose proof (trim_length p) as Ht.
  destruct rest as [|q r]; simpl.
  - destruct (Js.trim p) eqn:E; [simpl in Hlong; lia |]. simpl. now left.
  - assert (E : (maxLen <? String.length (p +:+ " " +:+ q))%nat = true).
    { apply Nat.ltb_lt. rewrite !str_length_app. lia. }
    rewrite E. now left.
Qed.

Lemma chunkFrom_emits_oversized (maxLen : nat) (p : string) (pieces : list string) :
  (maxLen < String.length (Js.trim p))%nat ->
  forall b, List.In p pieces -> List.In (Js.trim p) (chunkFrom maxLen b pieces).
Proof.
  intros Hlong. pose proof (trim_length p) as Ht.
  induction pieces as [|piece rest IH]; intros b Hin; [contradiction |].
  simpl. destruct Hin as [-> | Hin].
  - assert (E : (maxLen <? String.length (b +:+ " " +:+ p))%nat = true).
    { apply Nat.ltb_lt. rewrite !str_length_app. lia. }
    rewrite E. right. now apply chunkFrom_holds_oversized.
  - destruct (maxLen <? _)%nat; [right |]; now apply IH.
Qed.

(** C6: every chunk is at most [maxLen] long, or it is one sentence of the
    split, longer than [maxLen], pushed whole (with the white space around
    it trimmed). And such a sentence is never truncated or dropped: every
    piece of the split that, trimmed, is longer than [maxLen] is itself a
    chunk. *)
Theorem chunk_bounded_or_whole_sentence (text : string) (maxLen : nat) :
  (forall c,
      List.In c (chunk text maxLen) ->
      (String.length c <= maxLen)%nat
      \/ exists piece, List.In piece (splitSentences text)
                       /\ c = Js.trim piece /\ (maxLen < String.length piece)%nat)
  /\ (forall piece,
        List.In piece (splitSentences text) ->
        (maxLen < String.length (Js.trim piece))%nat ->
        List.In (Js.trim piece) (chunk text maxLen)).
Proof.
  rewrite chunk_chunkFrom. split.
  - apply (chunkFrom_bound maxLen (splitSentences text)).
    + left. simpl. lia.
    + auto.
  - intros piece Hin Hlong. now apply chunkFrom_emits_oversized.
Qed.

Lemma chunk_bounded_or_whole_sentence_witness :
  ((String.length "aaaa." <= 2)%nat
   \/ exists piece, List.In piece (splitSentences "aaaa. bb.")
                    /\ "aaaa." = Js.trim piece /\ (2 < String.length piece)%nat)
  /\ List.In (Js.trim "aaaa.") (chunk "aaaa. bb." 2).
Proof.
  destruct (chunk_bounded_or_whole_sentence "aaaa. bb." 2) as [Hb Hw]. split.
  - apply Hb. vm_compute. auto.
  - apply Hw; [vm_compute; auto | vm_compute; lia].
Defined.

(** C9: when the first piece of the split is at least [maxLen] long, the
    first chunk is the empty string: the empty buffer is pushed before the
    piece is taken. *)
Theorem chunk_leading_empty (text : string) (maxLen : nat) :
  (maxLen <= String.length (hd "" (splitSentences text)))%nat ->
  exists rest, chunk text maxLen = "" :: rest.
Proof.
  intros H. rewrite chunk_chunkFrom. unfold splitSentences in *.
  destruct (splitFrom_cons Plain text) as (p & ps & E). rewrite E in *.
  cbn [hd] in H. cbn [chunkFrom].
  assert (Hlt : (maxLen <? String.length ("" +:+ " " +:+ p))%nat = true).
  { apply Nat.ltb_lt. rewrite str_app_nil_l, str_length_app. simpl. lia. }
  rewrite Hlt. eauto.
Qed.

Lemma chunk_leading_empty_witness : exists rest, chunk "abc" 3 = "" :: rest.
Proof. apply (chunk_leading_empty "abc" 3). vm_compute. lia. Defined.

(** C8, as stated, fails: a text below the maximum with two spaces after a
    sentence gives one chunk that differs from the text, and the empty text
    gives no chunk. *)
Lemma chunk_short_not_identity :
  (String.length "a.  b." < 100)%nat /\ chunk "a.  b." 100 <> ["a.  b."]
  /\ (String.length "" < 100)%nat /\ chunk "" 100 = [].
Proof. vm_compute. repeat split; try lia; discriminate. Qed.

(** C8, amended: a text shorter than [maxLen] is never split. A blank text
    gives no chunk; any other gives exactly one chunk, the text with the
    white space around it removed and each white space run after a
    terminator replaced by one space; that chunk is the text itself when the
    text already has this form. *)
Theorem chunk_short_text (text : string) (maxLen : nat) :
  (String.length text < maxLen)%nat ->
  chunk text maxLen = (if blank text then [] else [normalize text])
  /\ (chunkShaped text = true -> chunk text maxLen = [text]).
Proof.
  intros Hlen.
  assert (E : chunk text maxLen = if blank text then [] else [normalize text]).
  { rewrite chunk_chunkFrom, chunkFrom_fits.
    - fold (normalize text). rewrite normalize_truthy. now destruct (blank text).
    - pose proof (splitFrom_room text Plain). unfold splitSentences. simpl. lia. }
  split; [exact E |].
  intros Hs. rewrite E. pose proof (normalize_truthy text) as Ht.
  rewrite (chunkShaped_normalize text Hs) in *.
  unfold chunkShaped in Hs. apply andb_prop in Hs as [[Hs _]%andb_prop _].
  rewrite Hs in Ht. destruct (blank text); [discriminate | reflexivity].
Qed.

Lemma chunk_short_text_witness :
  (String.length "Hi there. Bye!" < 20)%nat /\ chunk "Hi there. Bye!" 20 = ["Hi there. Bye!"].
Proof.
  assert (H : (String.length "Hi there. Bye!" < 20)%nat) by (vm_compute; lia).
  split; [exact H |].
  apply (proj2 (chunk_short_text "Hi there. Bye!" 20 H)). reflexivity.
Defined.

(** ** The flow: each block runs to a value *)

Ltac run_monad := unfold bind, tryCatch, await, ret.

Lemma captionTier_run (env : Env) (videoId : string) (lang : option string) (h : list Call) :
  captionTier env videoId lang h
  = (Returned match captions env h videoId lang with
              | Gave (c :: cs) => Some (Js.join " " (c :: cs))
              | _ => None
              end,
     h ++ [FetchCaptions videoId lang]).
Proof.
  unfold captionTier. run_monad.
  destruct (captions env h videoId lang) as [|[|c cs]]; reflexivity.
Qed.

Lemma metadataTier_run (env : Env) (videoId apiKey : string) (h : list Call) :
  metadataTier env videoId apiKey h
  = (Returned match metadata env h (metadataURL videoId apiKey) with
              | Gave (Some (title, description)) => Some (title +:+ nl +:+ description)
              | _ => None
              end,
     h ++ [GetMetadata (metadataURL videoId apiKey)]).
Proof.
  unfold metadataTier. run_monad.
  destruct (metadata env h (metadataURL videoId apiKey)) as [|[[t d]|]]; reflexivity.
Qed.

Lemma fetchTranscript_returns (env : Env) (videoId : string) (h : list Call) :
  exists transcript calls,
    fetchTranscript env videoId h = (Returned transcript, h ++ calls)
    /\ stage2Calls calls = [].
Proof.
  unfold fetchTranscript, bind. rewrite captionTier_run.
  destruct (captions env h videoId (Some "en")) as [|[|c cs]];
    try (eexists _, [_]; split; reflexivity).
  all: rewrite captionTier_run;
    destruct (captions env _ videoId None) as [|[|c' cs']];
    try (eexists _, [_; _]; rewrite <- List.app_assoc; split; reflexivity).
  all: destruct (absent (YOUTUBE_API_KEY env));
    try (eexists _, [_; _]; rewrite <- List.app_assoc; split; reflexivity).
  all: rewrite metadataTier_run;
    eexists _, [_; _; _]; rewrite <- !List.app_assoc; split; reflexivity.
Qed.

Lemma summarizeChunk_run (env : Env) (i total : nat) (section : string)
    (partials : list string) (h : list Call) :
  summarizeChunk env i total section partials h
  = (Returned (partials ++ [match generate env h (chunkPrompt i total section) with
                            | Gave text => text
                            | Threw => ""
                            end]),
     h ++ [GenerateText (chunkPrompt i total section)]).
Proof.
  unfold summarizeChunk. run_monad.
  destruct (generate env h (chunkPrompt i total section)) as [|[|c t]]; reflexivity.
Qed.

Lemma summarizeChunks_run (env : Env) (total : nat) (sections : list string) :
  forall i partials h,
    summarizeChunks env total i sections partials h
    = (Returned (partials ++ answers env total i sections h),
       h ++ map GenerateText (prompts total i sections)).
Proof.
  induction sections as [|section rest IH]; intros i partials h; simpl.
  - unfold ret. now rewrite !List.app_nil_r.
  - unfold bind. rewrite summarizeChunk_run, IH.
    now rewrite <- !List.app_assoc.
Qed.

Lemma finalSummary_run (env : Env) (combined : string) (h : list Call) :
  finalSummary env combined h
  = (Returned match generateOutput env h (finalPrompt combined) with
              | Gave (Some result) => result
              | Gave None => noFinalOutput
              | Threw => generationError
              end,
     h ++ [GenerateStructured (finalPrompt combined)]).
Proof.
  unfold finalSummary. run_monad.
  destruct (generateOutput env h (finalPrompt combined)) as [|[r|]]; reflexivity.
Qed.

Lemma answers_length (env : Env) (total : nat) (sections : list string) :
  forall i h, length (answers env total i sections h) = length sections.
Proof.
  induction sections as [|section rest IH]; intros i h; simpl; [reflexivity |].
  now rewrite IH.
Qed.

Lemma stage2Calls_text (ps : list string) : stage2Calls (map GenerateText ps) = [].
Proof. induction ps as [|p ps IH]; [reflexivity | exact IH]. Qed.

Lemma stage2Calls_app (a b : list Call) : stage2Calls (a ++ b) = stage2Calls a ++ stage2Calls b.
Proof. apply List.filter_app. Qed.

(** A join of non-empty texts is empty only when there is none. *)
Lemma join_truthy (sep : string) (l : list string) :
  List.Forall (fun x => Js.truthy x = true) l ->
  Js.truthy (Js.join sep l) = match l with [] => false | _ :: _ => true end.
Proof.
  intros H. destruct H as [|x l Hx Hl]; [reflexivity |].
  destruct x as [|c x]; [discriminate |]. destruct l; reflexivity.
Qed.

Lemma combine_truthy (partials : list string) :
  Js.truthy (combine partials) = existsb Js.truthy partials.
Proof.
  unfold combine. rewrite join_truthy.
  - induction partials as [|p ps IH]; [reflexivity |].
    simpl. destruct (Js.truthy p); [reflexivity | exact IH].
  - apply List.Forall_forall. intros x Hx. apply List.filter_In in Hx. tauto.
Qed.

Lemma absent_false (o : option string) :
  absent o = false -> exists t, o = Some t /\ Js.truthy t = true.
Proof.
  destruct o as [t|]; simpl; [| discriminate].
  intros H. exists t. split; [reflexivity |]. now destruct (Js.truthy t).
Qed.

Lemma absent_some (t : string) : Js.truthy t = true -> absent (Some t) = false.
Proof. intros H. simpl. now rewrite H. Qed.

(** ** The transcript acquirer *)

(** The acquirer in closed form. *)
Lemma fetchTranscript_run (env : Env) (videoId : string) (h : list Call) :
  let tier1 := FetchCaptions videoId (Some "en") in
  let tier2 := FetchCaptions videoId None in
  fetchTranscript env videoId h
  = match captions env h videoId (Some "en") with
    | Gave (c :: cs) => (Returned (Some (Js.join " " (c :: cs))), h ++ [tier1])
    | _ =>
        match captions env (h ++ [tier1]) videoId None with
        | Gave (c :: cs) => (Returned (Some (Js.join " " (c :: cs))), h ++ [tier1; tier2])
        | _ =>
            if absent (YOUTUBE_API_KEY env) then (Returned None, h ++ [tier1; tier2])
            else metadataTier env videoId (default "" (YOUTUBE_API_KEY env))
                   (h ++ [tier1; tier2])
        end
    end.
Proof.
  intros tier1 tier2. unfold fetchTranscript, bind. rewrite captionTier_run. fold tier1.
  destruct (captions env h videoId (Some "en")) as [|[|c cs]]; try reflexivity.
  all: rewrite captionTier_run; fold tier2;
    rewrite <- !List.app_assoc; simpl;
    destruct (captions env (h ++ [tier1]) videoId None) as [|[|c' cs']]; try reflexivity;
    destruct (absent (YOUTUBE_API_KEY env)); reflexivity.
Qed.

(** C3: the tiers run in order, each one only after the one before failed or
    returned no cue; the third synthesizes title, newline, description; when
    none gives a text the acquirer reports unavailability ([None]). *)
Theorem fetchTranscript_tiers (env : Env) (videoId : string) (h : list Call) :
  let tier1 := FetchCaptions videoId (Some "en") in
  let tier2 := FetchCaptions videoId None in
  let r1 := captions env h videoId (Some "en") in
  let r2 := captions env (h ++ [tier1]) videoId None in
  (exists c cs,
      r1 = Gave (c :: cs)
      /\ fetchTranscript env videoId h
         = (Returned (Some (Js.join " " (c :: cs))), h ++ [tier1]))
  \/ (noCues r1
      /\ exists c cs,
          r2 = Gave (c :: cs)
          /\ fetchTranscript env videoId h
             = (Returned (Some (Js.join " " (c :: cs))), h ++ [tier1; tier2]))
  \/ (noCues r1 /\ noCues r2
      /\ absent (YOUTUBE_API_KEY env) = true
      /\ fetchTranscript env videoId h = (Returned None, h ++ [tier1; tier2]))
  \/ (noCues r1 /\ noCues r2
      /\ exists apiKey,
          YOUTUBE_API_KEY env = Some apiKey /\ Js.truthy apiKey = true
          /\ let tier3 := GetMetadata (metadataURL videoId apiKey) in
             let r3 := metadata env (h ++ [tier1; tier2]) (metadataURL videoId apiKey) in
             (exists title description,
                 r3 = Gave (Some (title, description))
                 /\ fetchTranscript env videoId h
                    = (Returned (Some (title +:+ nl +:+ description)),
                       h ++ [tier1; tier2; tier3]))
             \/ ((r3 = Threw \/ r3 = Gave None)
                 /\ fetchTranscript env videoId h
                    = (Returned None, h ++ [tier1; tier2; tier3]))).
Proof.
  intros tier1 tier2 r1 r2.
  pose proof (fetchTranscript_run env videoId h) as E. cbv zeta in E.
  fold tier1 tier2 r1 r2 in E. rewrite E. clear E.
  destruct r1 as [|[|c cs]] eqn:E1; [| | left; eauto].
  all: assert (H1 : noCues r1) by (unfold noCues; rewrite E1; auto); rewrite E1 in H1.
  all: right; destruct r2 as [|[|c' cs']] eqn:E2; [| | left; eauto].
  all: assert (H2 : noCues r2) by (unfold noCues; rewrite E2; auto); rewrite E2 in H2.
  all: right; destruct (absent (YOUTUBE_API_KEY env)) eqn:Hk; [left; auto |].
  all: right; split; [exact H1 |]; split; [exact H2 |].
  all: apply absent_false in Hk as (apiKey & Hk & Ht); exists apiKey.
  all: rewrite Hk; split; [reflexivity |]; split; [exact Ht |].
  all: change (default "" (Some apiKey)) with apiKey.
  all: rewrite metadataTier_run, <- List.app_assoc; cbv zeta.
  all: destruct (metadata env _ (metadataURL videoId apiKey)) as [|[[t d]|]];
    [right | left | right]; eauto.
Qed.

(** ** The flow: steps 1 and 2 *)

Lemma summarizeParts_run (env : Env) (parts : list string) (h : list Call) :
  let partials := answers env (length parts) 0 parts h in
  let h1 := h ++ map GenerateText (prompts (length parts) 0 parts) in
  summarizeChunks env (length parts) 0 parts [] h = (Returned partials, h1)
  /\ summarizeParts env parts h
     = if Js.truthy (combine partials) then finalSummary env (combine partials) h1
       else (Returned allChunksFailed, h1).
Proof.
  intros partials h1. split; [apply summarizeChunks_run |].
  unfold summarizeParts, bind. rewrite summarizeChunks_run, List.app_nil_l.
  fold partials h1. destruct (Js.truthy (combine partials)); reflexivity.
Qed.

Lemma reachesChunks_fun (env : Env) (urlOrId : string) (h : list Call)
    (parts parts' : list string) (h1 h1' : list Call) :
  reachesChunks env urlOrId h parts h1 -> reachesChunks env urlOrId h parts' h1' ->
  parts = parts' /\ h1 = h1'.
Proof.
  intros (v & t & Hv & _ & Hf & _ & ->) (v' & t' & Hv' & _ & Hf' & _ & ->).
  rewrite Hv in Hv'. injection Hv' as <-. rewrite Hf in Hf'.
  injection Hf' as <- <-. auto.
Qed.

Lemma reachesReduction_fun (env : Env) (urlOrId : string) (h : list Call)
    (combined combined' : string) (h2 h2' : list Call) :
  reachesReduction env urlOrId h combined h2 ->
  reachesReduction env urlOrId h combined' h2' ->
  combined = combined' /\ h2 = h2'.
Proof.
  intros (parts & h1 & partials & Hr & _ & Hs & -> & _)
         (parts' & h1' & partials' & Hr' & _ & Hs' & -> & _).
  destruct (reachesChunks_fun _ _ _ _ _ _ _ Hr Hr') as [<- <-].
  rewrite Hs in Hs'. injection Hs' as <- <-. auto.
Qed.

(** How far the flow gets, and what it returns there. *)
Lemma summarizeYouTube_cases (env : Env) (urlOrId : string) (h : list Call) :
  (absent (extractVideoId (parseURL env) urlOrId) = true
   /\ summarizeYouTube env urlOrId h = (Returned invalidReference, h))
  \/ (exists videoId transcript calls,
        extractVideoId (parseURL env) urlOrId = Some videoId
        /\ Js.truthy videoId = true
        /\ fetchTranscript env videoId h = (Returned transcript, h ++ calls)
        /\ stage2Calls calls = []
        /\ absent transcript = true
        /\ summarizeYouTube env urlOrId h = (Returned transcriptUnavailable, h ++ calls))
  \/ (exists calls,
        reachesChunks env urlOrId h [] (h ++ calls)
        /\ stage2Calls calls = []
        /\ summarizeYouTube env urlOrId h = (Returned emptyTranscript, h ++ calls))
  \/ (exists parts calls,
        reachesChunks env urlOrId h parts (h ++ calls)
        /\ stage2Calls calls = []
        /\ parts <> []
        /\ summarizeYouTube env urlOrId h = summarizeParts env parts (h ++ calls)).
Proof.
  unfold summarizeYouTube.
  destruct (absent (extractVideoId (parseURL env) urlOrId)) eqn:Hv; [left; auto |].
  right. apply absent_false in Hv as (videoId & Hv & Hvt). rewrite Hv.
  change (default "" (Some videoId)) with videoId.
  destruct (fetchTranscript_returns env videoId h) as (transcript & calls & Hf & Hc).
  unfold bind. rewrite Hf.
  destruct (absent transcript) eqn:Ht.
  { left. exists videoId, transcript, calls. auto 10. }
  right. apply absent_false in Ht as (t & -> & Htt).
  change (default "" (Some t)) with t.
  assert (Hr : reachesChunks env urlOrId h (chunk t 6500) (h ++ calls)).
  { exists videoId, t. auto 10. }
  destruct (chunk t 6500) as [|p ps] eqn:Hp.
  - left. exists calls. auto.
  - right. exists (p :: ps), calls. repeat split; auto.
Qed.

(** C4: step 2 is called exactly when step 1 left a non-empty entry, then
    once, on the non-empty entries joined by newlines in the order of the
    chunks; when every entry is empty it is not called and the result is the
    "Summary unavailable" sentinel. When the flow stops before step 1, step 2
    is not called either. *)
Theorem stage2_once_iff_partial (env : Env) (urlOrId : string) (h : list Call) :
  exists result calls,
    summarizeYouTube env urlOrId h = (Returned result, h ++ calls)
    /\ ((exists parts h1,
            reachesChunks env urlOrId h parts h1 /\ parts <> []
            /\ let partials := answers env (length parts) 0 parts h1 in
               summarizeChunks env (length parts) 0 parts [] h1
               = (Returned partials, h1 ++ map GenerateText (prompts (length parts) 0 parts))
               /\ length partials = length parts
               /\ if existsb Js.truthy partials then
                    stage2Calls calls
                    = [GenerateStructured
                         (finalPrompt (Js.join nl (List.filter Js.truthy partials)))]
                  else stage2Calls calls = [] /\ result = allChunksFailed)
        \/ ((forall parts h1, reachesChunks env urlOrId h parts h1 -> parts = [])
            /\ stage2Calls calls = [])).
Proof.
  destruct (summarizeYouTube_cases env urlOrId h)
    as [[Hv E] | [(v & t & calls & Hv & Hvt & Hf & Hc & Ht & E)
       | [(calls & Hr & Hc & E) | (parts & calls & Hr & Hc & Hne & E)]]].
  - exists invalidReference, []. rewrite List.app_nil_r. split; [exact E |].
    right. split; [| reflexivity].
    intros parts h1 (v & t & Hv' & Hvt & _). rewrite Hv' in Hv.
    rewrite absent_some in Hv by assumption. discriminate.
  - exists transcriptUnavailable, calls. split; [exact E |].
    right. split; [| exact Hc].
    intros parts h1 (v' & t' & Hv' & _ & Hf' & Ht' & _).
    rewrite Hv in Hv'. injection Hv' as <-. rewrite Hf in Hf'.
    injection Hf' as -> _. rewrite absent_some in Ht by assumption. discriminate.
  - exists emptyTranscript, calls. split; [exact E |].
    right. split; [| exact Hc].
    intros parts h1 Hr'. now destruct (reachesChunks_fun _ _ _ _ _ _ _ Hr Hr').
  - destruct (summarizeParts_run env parts (h ++ calls)) as [Hs Hp].
    rewrite Hp in E. rewrite combine_truthy in E.
    destruct (existsb Js.truthy (answers env (length parts) 0 parts (h ++ calls))) eqn:Hex.
    + rewrite finalSummary_run in E. rewrite <- !List.app_assoc in E.
      eexists _, _. split; [exact E |].
      left. exists parts, (h ++ calls). split; [exact Hr |]. split; [exact Hne |].
      cbv zeta. split; [exact Hs |]. split; [apply answers_length |].
      rewrite Hex, !stage2Calls_app, Hc, stage2Calls_text. reflexivity.
    + rewrite <- !List.app_assoc in E.
      eexists _, _. split; [exact E |].
      left. exists parts, (h ++ calls). split; [exact Hr |]. split; [exact Hne |].
      cbv zeta. split; [exact Hs |]. split; [apply answers_length |].
      rewrite Hex, !stage2Calls_app, Hc, stage2Calls_text. auto.
Qed.

(** ** The flow: terminal states *)

Lemma Ends_fun (env : Env) (urlOrId : string) (h : list Call)
    (st st' : Terminal) (r r' : SummaryResult) :
  Ends env urlOrId h st r -> Ends env urlOrId h st' r' -> st = st' /\ r = r'.
Proof.
  intros H H'.
  destruct H; destruct H'; auto;
    repeat match goal with
      | H1 : reachesReduction _ _ _ ?c ?k, H2 : reachesReduction _ _ _ ?c' ?k' |- _ =>
          destruct (reachesReduction_fun _ _ _ _ _ _ _ H1 H2) as [? ?]; subst c' k'; clear H2
      | H1 : reachesReduction _ _ _ _ _ |- _ =>
          destruct H1 as (? & ? & ? & ? & ? & ? & ? & ?)
      | H1 : reachesChunks _ _ _ ?c ?k, H2 : reachesChunks _ _ _ ?c' ?k' |- _ =>
          destruct (reachesChunks_fun _ _ _ _ _ _ _ H1 H2) as [? ?]; subst; clear H2
      | H1 : reachesChunks _ _ _ _ _ |- _ =>
          destruct H1 as (? & ? & ? & ? & ? & ? & ?)
      end;
    subst; try congruence;
    repeat match goal with
      | H1 : Js.truthy ?t = true, H2 : context [absent (Some ?t)] |- _ =>
          rewrite (absent_some t H1) in H2
      | H1 : ?a = Some ?t, H2 : context [absent ?a] |- _ => rewrite H1 in H2
      | H1 : ?f = (Returned ?x, ?k), H2 : ?f = (Returned ?y, ?k') |- _ =>
          rewrite H1 in H2; injection H2 as ? ?; subst
      | H1 : ?a = Some ?x, H2 : ?a = Some ?y |- _ =>
          rewrite H1 in H2; injection H2 as ?; subst
      end;
    try congruence.
  split; congruence.
Qed.

Lemma summarizeYouTube_ends (env : Env) (urlOrId : string) (h : list Call) :
  exists result h' st,
    summarizeYouTube env urlOrId h = (Returned result, h') /\ Ends env urlOrId h st result.
Proof.
  destruct (summarizeYouTube_cases env urlOrId h)
    as [[Hv E] | [(v & t & calls & Hv & Hvt & Hf & Hc & Ht & E)
       | [(calls & Hr & Hc & E) | (parts & calls & Hr & Hc & Hne & E)]]].
  - exists invalidReference, h, InvalidReference. split; [exact E |]. now constructor.
  - exists transcriptUnavailable, (h ++ calls), TranscriptUnavailable.
    split; [exact E |]. econstructor; eassumption.
  - exists emptyTranscript, (h ++ calls), EmptyTranscript.
    split; [exact E |]. econstructor; eassumption.
  - destruct (summarizeParts_run env parts (h ++ calls)) as [Hs Hp].
    rewrite Hp in E. clear Hp.
    destruct (Js.truthy (combine (answers env (length parts) 0 parts (h ++ calls)))) eqn:Hcomb.
    + rewrite finalSummary_run in E.
      assert (Hred : reachesReduction env urlOrId h
                       (combine (answers env (length parts) 0 parts (h ++ calls)))
                       ((h ++ calls) ++ map GenerateText (prompts (length parts) 0 parts))).
      { exists parts, (h ++ calls), (answers env (length parts) 0 parts (h ++ calls)). auto. }
      destruct (generateOutput env _ _) as [|[result|]] eqn:Hout.
      * eexists _, _, ReductionFailed. split; [exact E |].
        eapply ends_reduction_threw; eassumption.
      * eexists _, _, Success. split; [exact E |].
        eapply ends_success; eassumption.
      * eexists _, _, ReductionFailed. split; [exact E |].
        eapply ends_reduction_none; eassumption.
    + eexists _, _, AllChunksFailed. split; [exact E |].
      eapply ends_chunks_failed; eassumption.
Qed.

(** The handler of the flow returns on every input and ends in exactly one
    of the six terminal states. *)
Lemma summarizeYouTube_handler_returns (env : Env) (urlOrId : string) (h : list Call) :
  exists result h' st,
    summarizeYouTube env urlOrId h = (Returned result, h')
    /\ Ends env urlOrId h st result
    /\ forall st' result',
         Ends env urlOrId h st' result' -> st' = st /\ result' = result.
Proof.
  destruct (summarizeYouTube_ends env urlOrId h) as (result & h' & st & E & He).
  exists result, h', st. split; [exact E |]. split; [exact He |].
  intros st' result' He'. destruct (Ends_fun _ _ _ _ _ _ _ He He'). auto.
Qed.

Lemma inputSchema_empty (urlOrId : string) : inputSchema urlOrId = false <-> urlOrId = "".
Proof.
  unfold inputSchema. destruct urlOrId as [|c u]; cbn; split; intros H;
    first [reflexivity | discriminate H].
Qed.

(** C1, as stated, fails. The flow raises on the empty input, which its
    input schema rejects; and an exception inside the pipeline need not give
    the result titled "Summary generation error": when every step 1 call
    throws the result is the "Summary unavailable" one. *)
Lemma summarizeYouTubeFlow_raises_on_empty :
  summarizeYouTubeFlow demoEnv "" [] = (Raised, [])
  /\ fst (summarizeYouTubeFlow failingEnv "dQw4w9WgXcQ" []) = Returned allChunksFailed
  /\ title allChunksFailed <> "Summary generation error".
Proof.
  split; [reflexivity |]. split; [vm_compute; reflexivity | discriminate].
Qed.

(** C1, amended: the flow raises, before any call, exactly on the empty
    input. On every other input, in every environment and from every log, it
    returns a result and ends in exactly one of the six terminal states: the
    exceptions of the caption, metadata and step 1 calls are absorbed where
    they occur. There is no handler around the whole pipeline; the result
    titled "Summary generation error" is returned when the step 2 call
    throws, and only then (unless the backend itself answers with that very
    record). *)
Theorem summarizeYouTubeFlow_raises_only_on_empty
    (env : Env) (urlOrId : string) (h : list Call) :
  (urlOrId = "" -> summarizeYouTubeFlow env urlOrId h = (Raised, h))
  /\ (urlOrId <> "" ->
      exists result h',
        summarizeYouTubeFlow env urlOrId h = (Returned result, h')
        /\ (exists st,
              Ends env urlOrId h st result
              /\ forall st' result',
                   Ends env urlOrId h st' result' -> st' = st /\ result' = result)
        /\ (forall combined h2,
              reachesReduction env urlOrId h combined h2 ->
              generateOutput env h2 (finalPrompt combined) = Threw ->
              result = generationError)
        /\ (result = generationError ->
            exists combined h2,
              reachesReduction env urlOrId h combined h2
              /\ (generateOutput env h2 (finalPrompt combined) = Threw
                  \/ generateOutput env h2 (finalPrompt combined)
                     = Gave (Some generationError)))).
Proof.
  split.
  - intros ->. reflexivity.
  - intros Hne. unfold summarizeYouTubeFlow.
    destruct (inputSchema urlOrId) eqn:Hin;
      [| apply inputSchema_empty in Hin; contradiction].
    destruct (summarizeYouTube_handler_returns env urlOrId h)
      as (result & h' & st & E & He & Huniq).
    exists result, h'. split; [exact E |]. split; [eauto |]. split.
    + intros combined h2 Hr Hthrew.
      pose proof (ends_reduction_threw _ _ _ _ _ Hr Hthrew) as He'.
      now destruct (Huniq _ _ He') as [_ ->].
    + intros ->. inversion He; subst; try discriminate; eauto.
Qed.

Lemma summarizeYouTubeFlow_raises_only_on_empty_witness :
  exists result h',
    summarizeYouTubeFlow demoEnv "dQw4w9WgXcQ" [] = (Returned result, h')
    /\ (exists st,
          Ends demoEnv "dQw4w9WgXcQ" [] st result
          /\ forall st' result',
               Ends demoEnv "dQw4w9WgXcQ" [] st' result' -> st' = st /\ result' = result)
    /\ (forall combined h2,
          reachesReduction demoEnv "dQw4w9WgXcQ" [] combined h2 ->
          generateOutput demoEnv h2 (finalPrompt combined) = Threw ->
          result = generationError)
    /\ (result = generationError ->
        exists combined h2,
          reachesReduction demoEnv "dQw4w9WgXcQ" [] combined h2
          /\ (generateOutput demoEnv h2 (finalPrompt combined) = Threw
              \/ generateOutput demoEnv h2 (finalPrompt combined)
                 = Gave (Some generationError))).
Proof.
  apply (proj2 (summarizeYouTubeFlow_raises_only_on_empty demoEnv "dQw4w9WgXcQ" [])).
  discriminate.
Defined.

(** ** The resolver *)

(** C7, as stated, fails: the path of a short link is returned as it is. *)
Lemma extractVideoId_short_link :
  extractVideoId exampleURL "https://youtu.be/abc" = Some "abc" /\ isVideoId "abc" = false.
Proof. split; reflexivity. Qed.

(** C7, amended: when the resolver returns an id, either the input itself
    matches the 11-character grammar and is that id, or the id is text of
    the parsed URL, taken as it is: the path after its first character for a
    short-link host, else the non-empty [v] parameter, else the non-empty
    segment after ["embed"]. Only in the first case is the grammar checked. *)
Theorem extractVideoId_cases (parse : string -> option URL) (input id : string) :
  extractVideoId parse input = Some id ->
  (id = input /\ isVideoId id = true)
  \/ (isVideoId input = false
      /\ exists url,
          parse input = Some url
          /\ ((Js.includes "youtu.be" (hostname url) = true
               /\ id = Js.slice1 (pathname url))
              \/ (Js.includes "youtu.be" (hostname url) = false
                  /\ searchGet "v" (searchParams url) = Some id
                  /\ Js.truthy id = true)
              \/ (Js.includes "youtu.be" (hostname url) = false
                  /\ absent (searchGet "v" (searchParams url)) = true
                  /\ afterEmbed (Js.splitOn "/" (pathname url)) = Some id
                  /\ Js.truthy id = true))).
Proof.
  unfold extractVideoId.
  destruct (isVideoId input) eqn:Hid.
  - intros [= <-]. left. auto.
  - intros H. right. split; [reflexivity |].
    destruct (parse input) as [url|]; [| discriminate]. exists url.
    split; [reflexivity |].
    destruct (Js.includes "youtu.be" (hostname url)).
    + injection H as <-. left. auto.
    + right. destruct (searchGet "v" (searchParams url)) as [[|c v]|] eqn:Hv.
      * right. repeat split; auto.
        unfold afterEmbed in *.
        destruct (Js.indexOf "embed" _); [| discriminate].
        destruct (nth_error _ _) as [seg|]; [| discriminate].
        destruct (Js.truthy seg) eqn:Hs; [| discriminate]. now injection H as <-.
      * injection H as <-. left. auto.
      * right. repeat split; auto.
        unfold afterEmbed in *.
        destruct (Js.indexOf "embed" _); [| discriminate].
        destruct (nth_error _ _) as [seg|]; [| discriminate].
        destruct (Js.truthy seg) eqn:Hs; [| discriminate]. now injection H as <-.
Qed.

(** ** The rate limiter *)

Lemma rateLimit_window (ip : string) (now : Z) (hits : gmap string (list Z)) :
  window (rateLimit ip now hits).2 ip = slide (window hits ip) now.
Proof.
  unfold rateLimit. fold (slide (window hits ip) now).
  destruct (MAX_REQ <? length (slide (window hits ip) now))%nat; simpl;
    unfold window at 1; now rewrite lookup_insert_eq.
Qed.

Lemma rateLimit_window_other (ip ip' : string) (now : Z) (hits : gmap string (list Z)) :
  ip' <> ip -> window (rateLimit ip' now hits).2 ip = window hits ip.
Proof.
  intros Hne. unfold rateLimit.
  destruct (MAX_REQ <? _)%nat; simpl; unfold window at 1;
    now rewrite lookup_insert_ne.
Qed.

Lemma rateLimit_decision (ip : string) (now : Z) (hits : gmap string (list Z)) :
  (rateLimit ip now hits).1
  = if (MAX_REQ <? length (slide (window hits ip) now))%nat then Reject429 else Next.
Proof.
  unfold rateLimit. fold (slide (window hits ip) now).
  now destruct (MAX_REQ <? length (slide (window hits ip) now))%nat.
Qed.

Lemma serve_cons (ip : string) (now : Z) (rest : list (string * Z))
    (hits : gmap string (list Z)) :
  serve ((ip, now) :: rest) hits
  = ((rateLimit ip now hits).1 :: (serve rest (rateLimit ip now hits).2).1,
     (serve rest (rateLimit ip now hits).2).2).
Proof.
  cbn [serve]. destruct (rateLimit ip now hits) as [d hits'].
  cbn [fst snd]. now destruct (serve rest hits') as [ds hits''].
Qed.

Lemma serve_window (ip : string) (reqs : list (string * Z)) :
  forall hits, window (serve reqs hits).2 ip = fold_left slide (timesOf ip reqs) (window hits ip).
Proof.
  induction reqs as [|[ip' now] rest IH]; intros hits; [reflexivity |].
  rewrite serve_cons. cbn [snd]. rewrite IH.
  unfold timesOf. rewrite filter_cons. cbn [fst]. case_decide as Hip.
  - subst ip'. simpl. now rewrite rateLimit_window.
  - now rewrite rateLimit_window_other.
Qed.

Lemma fold_slide_snoc (ts : list Z) (t : Z) (w : list Z) :
  fold_left slide (ts ++ [t]) w = slide (fold_left slide ts w) t.
Proof. now rewrite fold_left_app. Qed.

Lemma filter_all (P : Z -> Prop) `{forall x, Decision (P x)} (l : list Z) :
  Forall P l -> filter P l = l.
Proof.
  induction 1 as [|x l Hx Hl IH]; [reflexivity |].
  rewrite filter_cons_True by assumption. now rewrite IH.
Qed.

Lemma filter_none (P : Z -> Prop) `{forall x, Decision (P x)} (l : list Z) :
  Forall (fun x => ~ P x) l -> filter P l = [].
Proof.
  induction 1 as [|x l Hx Hl IH]; [reflexivity |].
  now rewrite filter_cons_False by assumption.
Qed.

(** Times that are close to one another are all kept. *)
Lemma fold_slide_keeps (ts : list Z) (w : list Z) :
  withinWindow ts -> exists older, fold_left slide ts w = older ++ ts.
Proof.
  induction ts as [|t ts IH] using rev_ind; intros H; [exists w; now rewrite app_nil_r |].
  unfold withinWindow in H. rewrite Forall_app in H. destruct H as [Hts Ht].
  destruct IH as (older & E).
  { eapply Forall_impl; [exact Hts |]. intros x Hx. rewrite Forall_app in Hx. tauto. }
  rewrite fold_slide_snoc, E. unfold slide. rewrite filter_app.
  exists (filter (fun t0 => (t - t0 < WINDOW_MS)%Z) older).
  rewrite <- app_assoc. f_equal. f_equal.
  apply filter_all.
  eapply Forall_impl; [exact Hts |]. intros x Hx. rewrite Forall_app in Hx.
  destruct Hx as [_ Hx]. now inversion Hx.
Qed.

(** Nothing enters a window but the times of the requests. *)
Lemma fold_slide_elem (ts : list Z) :
  forall w x, x ∈ fold_left slide ts w -> x ∈ w \/ x ∈ ts.
Proof.
  induction ts as [|t ts IH]; intros w x Hx; simpl in Hx; [now left |].
  apply IH in Hx as [Hx | Hx]; [| right; now right].
  unfold slide in Hx. rewrite elem_of_app, list_elem_of_filter, list_elem_of_singleton in Hx.
  destruct Hx as [[_ Hx] | ->]; [now left | right; now left].
Qed.

(** C5: on each request the limiter keeps the times of the identity that
    are less than 30 s old, appends the current time, stores the list, and
    lets the request through exactly when the list has at most 15 entries.
    So a request that comes when at least 15 earlier ones of the identity lie
    with it within one window is rejected, whatever other identities did in
    between; and a request that comes when every recorded time of the
    identity is a window old or more is let through. *)
Theorem rateLimit_sliding_window (hits : gmap string (list Z)) (ip : string) (now : Z) :
  (let arr := filter (fun t => (now - t < 30000)%Z) (window hits ip) ++ [now] in
   window (rateLimit ip now hits).2 ip = arr
   /\ ((rateLimit ip now hits).1 = Next <-> (length arr <= 15)%nat)
   /\ ((rateLimit ip now hits).1 = Reject429 <-> (15 < length arr)%nat))
  /\ (forall reqs,
        (15 <= length (timesOf ip reqs))%nat ->
        withinWindow (timesOf ip reqs ++ [now]) ->
        (rateLimit ip now (serve reqs hits).2).1 = Reject429)
  /\ (forall reqs,
        Forall (fun t => (30000 <= now - t)%Z) (window hits ip ++ timesOf ip reqs) ->
        (rateLimit ip now (serve reqs hits).2).1 = Next).
Proof.
  split; [| split].
  - cbv zeta. split; [apply rateLimit_window |].
    rewrite rateLimit_decision. unfold slide, MAX_REQ, WINDOW_MS.
    destruct (15 <? length _)%nat eqn:E;
      [apply Nat.ltb_lt in E | apply Nat.ltb_ge in E];
      (split; split; intros; try discriminate; try reflexivity; lia).
  - intros reqs Hlen Hclose.
    rewrite rateLimit_decision, serve_window, <- fold_slide_snoc.
    destruct (fold_slide_keeps (timesOf ip reqs ++ [now]) (window hits ip) Hclose)
      as (older & ->).
    assert (Hlt : (MAX_REQ <? length (older ++ timesOf ip reqs ++ [now]))%nat = true).
    { apply Nat.ltb_lt. rewrite !length_app. simpl. unfold MAX_REQ. lia. }
    now rewrite Hlt.
  - intros reqs Hold.
    rewrite rateLimit_decision, serve_window. unfold slide at 1.
    rewrite filter_none; [reflexivity |].
    apply Forall_forall. intros x Hx. apply fold_slide_elem in Hx.
    rewrite Forall_forall in Hold. specialize (Hold x).
    rewrite elem_of_app in Hold. unfold WINDOW_MS. specialize (Hold Hx). lia.
Qed.

Lemma rateLimit_sliding_window_witness :
  (rateLimit "10.0.0.1" 500 (serve (firstn 15 burst) ∅).2).1 = Reject429
  /\ (rateLimit "10.0.0.1" 30000 (serve (firstn 15 burst) ∅).2).1 = Next.
Proof.
  destruct (rateLimit_sliding_window ∅ "10.0.0.1" 500) as (_ & H16 & _).
  destruct (rateLimit_sliding_window ∅ "10.0.0.1" 30000) as (_ & _ & Hagain).
  split.
  - apply H16; [vm_compute; lia |].
    apply (bool_decide_unpack _). vm_compute. exact I.
  - apply Hagain. apply (bool_decide_unpack _). vm_compute. exact I.
Defined.

(** C10: the time of a request is appended and stored before the count is
    compared, so it is recorded whether the request is let through or
    rejected, and the next request of the identity, when it comes less than
    30 s later, finds it in the list and is counted with it. *)
Theorem rateLimit_records_every_request
    (hits : gmap string (list Z)) (ip : string) (now : Z) :
  let kept := filter (fun t => (now - t < 30000)%Z) (window hits ip) in
  let hits' := (rateLimit ip now hits).2 in
  hits' !! ip = Some (kept ++ [now])
  /\ forall reqs now',
       timesOf ip reqs = [] ->
       (now' - now < 30000)%Z ->
       let arr' := filter (fun t => (now' - t < 30000)%Z) kept ++ [now; now'] in
       window (rateLimit ip now' (serve reqs hits').2).2 ip = arr'
       /\ ((rateLimit ip now' (serve reqs hits').2).1 = Next <-> (length arr' <= 15)%nat).
Proof.
  intros kept hits'. split.
  - unfold hits', rateLimit, WINDOW_MS. fold kept.
    destruct (MAX_REQ <? length (kept ++ [now]))%nat; simpl; apply lookup_insert_eq.
  - intros reqs now' Hreqs Hnear arr'.
    assert (E : slide (window (serve reqs hits').2 ip) now' = arr').
    { rewrite serve_window, Hreqs. simpl fold_left. unfold hits'.
      rewrite rateLimit_window. unfold slide, WINDOW_MS. fold kept.
      rewrite filter_app, filter_cons_True, filter_nil by exact Hnear.
      unfold arr'. now rewrite <- app_assoc. }
    rewrite rateLimit_window, rateLimit_decision, E. split; [reflexivity |].
    unfold MAX_REQ.
    destruct (15 <? length arr')%nat eqn:El;
      [apply Nat.ltb_lt in El | apply Nat.ltb_ge in El];
      (split; intros; try discriminate; try reflexivity; lia).
Qed.

Lemma rateLimit_records_every_request_witness :
  (rateLimit "10.0.0.1" 1000 (serve (firstn 15 burst) ∅).2).1 = Reject429
  /\ window (rateLimit "10.0.0.1" 2000
               (rateLimit "10.0.0.1" 1000 (serve (firstn 15 burst) ∅).2).2).2 "10.0.0.1"
     = repeat 0%Z 15 ++ [1000%Z; 2000%Z].
Proof.
  split; [reflexivity |].
  destruct (rateLimit_records_every_request (serve (firstn 15 burst) ∅).2 "10.0.0.1" 1000)
    as [_ H].
  destruct (H [] 2000%Z) as [E _]; [reflexivity | lia |].
  etransitivity; [exact E |]. vm_compute. reflexivity.
Defined.

(** Rejected requests count: after fifteen requests at time 0 and fifteen
    rejected ones a second later, a request at 30 s is rejected although no
    request that was let through is less than 30 s old. *)
Example rejected_requests_fill_the_window :
  (serve (burst ++ [("10.0.0.1", 30000%Z)]) ∅).1
  = repeat Next 15 ++ repeat Reject429 15 ++ [Reject429].
Proof. vm_compute. reflexivity. Qed.

(** ** Instances and examples *)

Lemma extractVideoId_cases_witness :
  ("dQw4w9WgXcQ" = "https://www.youtube.com/watch?v=dQw4w9WgXcQ"
   /\ isVideoId "dQw4w9WgXcQ" = true)
  \/ (isVideoId "https://www.youtube.com/watch?v=dQw4w9WgXcQ" = false
      /\ exists url,
          exampleURL "https://www.youtube.com/watch?v=dQw4w9WgXcQ" = Some url
          /\ ((Js.includes "youtu.be" (hostname url) = true
               /\ "dQw4w9WgXcQ" = Js.slice1 (pathname url))
              \/ (Js.includes "youtu.be" (hostname url) = false
                  /\ searchGet "v" (searchParams url) = Some "dQw4w9WgXcQ"
                  /\ Js.truthy "dQw4w9WgXcQ" = true)
              \/ (Js.includes "youtu.be" (hostname url) = false
                  /\ absent (searchGet "v" (searchParams url)) = true
                  /\ afterEmbed (Js.splitOn "/" (pathname url)) = Some "dQw4w9WgXcQ"
                  /\ Js.truthy "dQw4w9WgXcQ" = true))).
Proof.
  apply (extractVideoId_cases exampleURL "https://www.youtube.com/watch?v=dQw4w9WgXcQ").
  reflexivity.
Defined.

Example splitSentences_example :
  splitSentences "Hello world.  How are you? Fine!  "
  = ["Hello world."; "How are you?"; "Fine!"; ""].
Proof. reflexivity. Qed.

Example splitSentences_empty : splitSentences "" = [""].
Proof. reflexivity. Qed.

Example chunk_example : chunk "ab. cd. ef." 7 = ["ab. cd."; "ef."].
Proof. reflexivity. Qed.

Example chunk_two_oversized : chunk "aaaa. bbbb." 2 = [""; "aaaa."; "bbbb."].
Proof. reflexivity. Qed.

Example chunk_exact_length : chunk "abc" 3 = [""; "abc"].
Proof. reflexivity. Qed.

Example chunk_empty_text : chunk "" 4 = [].
Proof. reflexivity. Qed.

Example extractVideoId_bare : extractVideoId exampleURL "dQw4w9WgXcQ" = Some "dQw4w9WgXcQ".
Proof. reflexivity. Qed.

Example extractVideoId_embed :
  extractVideoId exampleURL "https://www.youtube.com/embed/dQw4w9WgXcQ" = Some "dQw4w9WgXcQ".
Proof. reflexivity. Qed.

Example extractVideoId_not_a_url : extractVideoId exampleURL "not a url" = None.
Proof. reflexivity. Qed.

Example summarizeYouTube_success :
  fst (summarizeYouTube demoEnv "dQw4w9WgXcQ" []) = Returned demoSummary
  /\ stage2Calls (snd (summarizeYouTube demoEnv "dQw4w9WgXcQ" []))
     = [GenerateStructured (finalPrompt "- a point")].
Proof. split; vm_compute; reflexivity. Qed.

Example summarizeYouTube_all_chunks_failed :
  summarizeYouTube failingEnv "dQw4w9WgXcQ" []
  = (Returned allChunksFailed,
     [FetchCaptions "dQw4w9WgXcQ" (Some "en");
      GenerateText (chunkPrompt 0 1 "Hello world. Bye.")]).
Proof. vm_compute. reflexivity. Qed.

Example summarizeYouTube_invalid :
  summarizeYouTube demoEnv "not a url" [] = (Returned invalidReference, []).
Proof. reflexivity. Qed.

Example summarizeYouTube_unavailable :
  summarizeYouTube noCaptionsEnv "dQw4w9WgXcQ" []
  = (Returned transcriptUnavailable,
     [FetchCaptions "dQw4w9WgXcQ" (Some "en"); FetchCaptions "dQw4w9WgXcQ" None]).
Proof. vm_compute. reflexivity. Qed.

Example summarizeYouTube_empty_transcript :
  fst (summarizeYouTube blankCaptionsEnv "dQw4w9WgXcQ" []) = Returned emptyTranscript.
Proof. vm_compute. reflexivity. Qed.

Example summarizeYouTube_generation_error :
  fst (summarizeYouTube throwingReductionEnv "dQw4w9WgXcQ" []) = Returned generationError.
Proof. vm_compute. reflexivity. Qed.

(** A call that throws outside a [try] does raise. *)
Example await_raises :
  await (GenerateText "p") (fun _ => @Threw string) [] = (Raised, [GenerateText "p"]).
Proof. reflexivity. Qed.

Example clientIp_forwarded : clientIp (Some " 10.0.0.1 , 10.0.0.2") (Some "::1") = "10.0.0.1".
Proof. reflexivity. Qed.

Example clientIp_unknown : clientIp None None = "unknown".
Proof. reflexivity. Qed.

(** * Further properties of the code *)

(** ** The chunker *)

Lemma terminal_not_space (c : ascii) : Js.isTerminal c = true -> Js.isSpace c = false.
Proof.
  destruct c as [b0 b1 b2 b3 b4 b5 b6 b7].
  destruct b0, b1, b2, b3, b4, b5, b6, b7; vm_compute; congruence.
Qed.

Lemma space_scanAfter (c : ascii) : Js.isSpace c = true -> scanAfter c = Plain.
Proof.
  intros H. unfold scanAfter. destruct (Js.isTerminal c) eqn:E; [| reflexivity].
  apply terminal_not_space in E. congruence.
Qed.

Lemma joinInto_snoc (b : string) (group : list string) (piece : string) :
  joinInto b (group ++ [piece])
  = joinInto b group +:+ (if Js.truthy (joinInto b group) then " " else "") +:+ piece.
Proof. unfold joinInto. now rewrite fold_left_app. Qed.

Lemma chunkFrom_aligned (maxLen : nat) (all : list string) (pieces : list string) :
  forall before group,
    all = before ++ group ++ pieces ->
    forall c, List.In c (chunkFrom maxLen (joinInto "" group) pieces) ->
      exists before' group' after',
        all = before' ++ group' ++ after' /\ c = Js.trim (joinInto "" group').
Proof.
  induction pieces as [|piece rest IH]; intros before group Hall c Hc; simpl in Hc.
  - exists before, group, []. split; [exact Hall |].
    destruct (Js.truthy (Js.trim (joinInto "" group))); simpl in Hc;
      [destruct Hc as [Hc | []]; now symmetry | contradiction].
  - destruct (maxLen <? _)%nat.
    + destruct Hc as [<- | Hc]; [exists before, group, (piece :: rest); auto |].
      apply (IH (before ++ group) [piece]); [| exact Hc].
      rewrite Hall, <- !List.app_assoc. reflexivity.
    + apply (IH before (group ++ [piece])).
      * rewrite Hall, <- !List.app_assoc. reflexivity.
      * now rewrite joinInto_snoc.
Qed.

(** X1: chunks are made of whole sentences: every chunk is a run of
    consecutive pieces of the split, appended to one another with the
    buffer's single space, and trimmed. No piece is cut. *)
Theorem chunk_sentence_aligned (text : string) (maxLen : nat) (c : string) :
  List.In c (chunk text maxLen) ->
  exists before group after,
    splitSentences text = before ++ group ++ after
    /\ c = Js.trim (joinInto "" group).
Proof.
  rewrite chunk_chunkFrom. intros Hc.
  apply (chunkFrom_aligned maxLen (splitSentences text) (splitSentences text) [] []);
    [reflexivity | exact Hc].
Qed.

Lemma chunk_sentence_aligned_witness :
  exists before group after,
    splitSentences "ab. cd. ef." = before ++ group ++ after
    /\ "ab. cd." = Js.trim (joinInto "" group).
Proof.
  apply (chunk_sentence_aligned "ab. cd. ef." 7 "ab. cd."). vm_compute. auto.
Defined.

Lemma innerNonblank_tl (l : list string) :
  innerNonblank l = true -> innerNonblank (tl l) = true.
Proof.
  destruct l as [|x [|y r]]; simpl; auto.
  intros [_ H]%andb_prop. exact H.
Qed.

Lemma innerNonblank_consHead (c : ascii) (l : list string) :
  innerNonblank (tl l) = true ->
  (Js.isSpace c = true -> innerNonblank l = true) ->
  innerNonblank (Js.consHead c l) = true.
Proof.
  destruct l as [|p [|q r]]; simpl; auto.
  intros Hr Hl. rewrite Hr, andb_true_r.
  change (blank (String c p)) with (Js.isSpace c && blank p).
  destruct (Js.isSpace c); [| reflexivity]. simpl.
  specialize (Hl eq_refl). now apply andb_prop in Hl as [Hl _].
Qed.

(** Every piece of the split but the last holds a terminator, so it is not
    blank. From [AfterTerm] the head continues a piece begun earlier. *)
Lemma splitFrom_innerNonblank (s : string) :
  forall st,
    innerNonblank (match st with
                   | AfterTerm => tl (splitFrom st s)
                   | _ => splitFrom st s
                   end) = true.
Proof.
  induction s as [|c s IH]; intros st; [destruct st; reflexivity |].
  assert (Htl : innerNonblank (tl (splitFrom (scanAfter c) s)) = true).
  { specialize (IH (scanAfter c)). unfold scanAfter in *.
    destruct (Js.isTerminal c); [exact IH | now apply innerNonblank_tl]. }
  assert (Hcons : innerNonblank (Js.consHead c (splitFrom (scanAfter c) s)) = true).
  { apply innerNonblank_consHead; [exact Htl |].
    intros Hc. rewrite (space_scanAfter c Hc). exact (IH Plain). }
  assert (Hcons' : innerNonblank (tl (Js.consHead c (splitFrom (scanAfter c) s))) = true).
  { now apply innerNonblank_tl. }
  simpl. destruct st, (Js.isSpace c); auto.
  - exact (IH InSep).
  - exact (IH InSep).
Qed.

Lemma chunkFrom_truthy (maxLen : nat) (pieces : list string) :
  forall b,
    innerNonblank pieces = true ->
    blank b = false \/ pieces = [] ->
    List.Forall (fun c => Js.truthy c = true) (chunkFrom maxLen b pieces).
Proof.
  induction pieces as [|piece rest IH]; intros b Hin Hb; simpl.
  - destruct (Js.truthy (Js.trim b)) eqn:E; constructor; auto.
  - destruct Hb as [Hb | Hb]; [| discriminate].
    assert (Hrest : innerNonblank rest = true).
    { now apply (innerNonblank_tl (piece :: rest)). }
    destruct (maxLen <? _)%nat.
    + constructor; [now rewrite trim_truthy, Hb |].
      apply IH; [exact Hrest |].
      destruct rest as [|q r]; [now right | left].
      simpl in Hin. apply andb_prop in Hin as [Hin _]. now destruct (blank piece).
    + apply IH; [exact Hrest | left].
      destruct (blank (b +:+ (if Js.truthy b then " " else "") +:+ piece)) eqn:E;
        [| reflexivity].
      apply words_blank in E. destruct b as [|x b]; [discriminate |].
      simpl in E. rewrite str_app_cons in E.
      change (String x (b +:+ " " +:+ piece)) with (String x b +:+ String " " piece) in E.
      rewrite words_app_space in E by reflexivity.
      apply List.app_eq_nil in E as [E _]. apply words_nil_blank in E. congruence.
Qed.

(** X2: only the first chunk can be empty. It is empty exactly when the
    first piece of the split does not fit ([1 + its length > maxLen]); every
    other chunk holds at least one character. *)
Theorem chunk_only_first_empty (text : string) (maxLen : nat) :
  exists rest,
    List.Forall (fun c => Js.truthy c = true) rest
    /\ chunk text maxLen
       = if (maxLen <? S (String.length (hd "" (splitSentences text))))%nat
         then "" :: rest else rest.
Proof.
  rewrite chunk_chunkFrom. unfold splitSentences.
  pose proof (splitFrom_innerNonblank text Plain) as Hin. cbv beta iota in Hin.
  destruct (splitFrom_cons Plain text) as (p & ps & E). rewrite E in *.
  cbn [hd chunkFrom].
  assert (Hps : innerNonblank ps = true) by now apply (innerNonblank_tl (p :: ps)).
  assert (Hp : blank p = false \/ ps = []).
  { destruct ps as [|q r]; [now right | left].
    simpl in Hin. apply andb_prop in Hin as [Hin _]. now destruct (blank p). }
  assert (El : String.length ("" +:+ " " +:+ p) = S (String.length p)).
  { rewrite str_app_nil_l, str_length_app. reflexivity. }
  rewrite El. destruct (maxLen <? S (String.length p))%nat.
  - exists (chunkFrom maxLen p ps). split; [now apply chunkFrom_truthy | reflexivity].
  - eexists. split; [| reflexivity].
    change ("" +:+ (if Js.truthy "" then " " else "") +:+ p) with p.
    now apply chunkFrom_truthy.
Qed.

Lemma trimEnd_idem (s : string) : Js.trimEnd (Js.trimEnd s) = Js.trimEnd s.
Proof.
  induction s as [|c s IH]; [reflexivity |].
  simpl. destruct (Js.trimEnd s) as [|d t] eqn:E.
  - destruct (Js.isSpace c) eqn:Hc; [reflexivity |]. simpl. now rewrite Hc.
  - change (Js.trimEnd (String c (String d t)))
      with (match Js.trimEnd (String d t) with
            | EmptyString => if Js.isSpace c then EmptyString else String c EmptyString
            | u => String c u
            end).
    now rewrite IH.
Qed.

Lemma trimEnd_head (c : ascii) (t : string) :
  Js.isSpace c = false -> exists t', Js.trimEnd (String c t) = String c t'.
Proof.
  intros Hc. simpl. destruct (Js.trimEnd t); [rewrite Hc |]; eauto.
Qed.

Lemma trimStart_head (s : string) :
  Js.trimStart s = "" \/ exists c t, Js.trimStart s = String c t /\ Js.isSpace c = false.
Proof.
  induction s as [|c s IH]; [now left |].
  simpl. destruct (Js.isSpace c) eqn:Hc; [exact IH | right; eauto].
Qed.

Lemma trim_idem (s : string) : Js.trim (Js.trim s) = Js.trim s.
Proof.
  unfold Js.trim.
  destruct (trimStart_head s) as [-> | (c & t & -> & Hc)]; [reflexivity |].
  destruct (trimEnd_head c t Hc) as (t' & E). rewrite E.
  simpl Js.trimStart. rewrite Hc, <- E. apply trimEnd_idem.
Qed.

Lemma chunkFrom_trimmed (maxLen : nat) (pieces : list string) :
  forall b c, List.In c (chunkFrom maxLen b pieces) -> exists s, c = Js.trim s.
Proof.
  induction pieces as [|piece rest IH]; intros b c Hc; simpl in Hc.
  - destruct (Js.truthy (Js.trim b)); simpl in Hc; [| contradiction].
    destruct Hc as [<- | []]. eauto.
  - destruct (maxLen <? _)%nat; [destruct Hc as [<- | Hc] |]; eauto.
Qed.

(** X3: no chunk begins or ends with white space: trimming a chunk leaves it
    as it is. *)
Theorem chunk_trimmed (text : string) (maxLen : nat) (c : string) :
  List.In c (chunk text maxLen) -> Js.trim c = c.
Proof.
  rewrite chunk_chunkFrom. intros Hc.
  destruct (chunkFrom_trimmed _ _ _ _ Hc) as (s & ->). apply trim_idem.
Qed.

Lemma chunk_trimmed_witness : Js.trim "cd. ef." = "cd. ef.".
Proof. apply (chunk_trimmed " ab.   cd.  ef. " 7). vm_compute. auto. Defined.

Lemma splitFrom_blank (s : string) : blank s = true -> splitFrom Plain s = [s].
Proof.
  induction s as [|c s IH]; [reflexivity |].
  rewrite blank_cons. intros [Hc Hs]%andb_prop.
  simpl. rewrite (space_scanAfter c Hc), (IH Hs). reflexivity.
Qed.

Lemma trim_blank (s : string) : blank s = true -> Js.trim s = "".
Proof. intros H. unfold Js.trim. now rewrite trimStart_blank. Qed.

Lemma chunk_blank (text : string) (maxLen : nat) :
  blank text = true ->
  chunk text maxLen = if (maxLen <? S (String.length text))%nat then [""] else [].
Proof.
  intros Hb. rewrite chunk_chunkFrom. unfold splitSentences.
  rewrite (splitFrom_blank text Hb). cbn [chunkFrom].
  assert (El : String.length ("" +:+ " " +:+ text) = S (String.length text)).
  { rewrite str_app_nil_l, str_length_app. reflexivity. }
  rewrite El. destruct (maxLen <? S (String.length text))%nat.
  - now rewrite (trim_blank text Hb).
  - change ("" +:+ (if Js.truthy "" then " " else "") +:+ text) with text.
    now rewrite (trim_blank text Hb).
Qed.

(** X4: the chunker returns no chunk exactly for a blank text shorter than
    [maxLen]. A blank text that is [maxLen] long or longer gives one chunk,
    the empty string. *)
Theorem chunk_nil_iff (text : string) (maxLen : nat) :
  (chunk text maxLen = [] <-> blank text = true /\ (String.length text < maxLen)%nat)
  /\ (blank text = true -> (maxLen <= String.length text)%nat -> chunk text maxLen = [""]).
Proof.
  split; [split |].
  - intros E.
    assert (Hb : blank text = true).
    { apply words_nil_blank.
      rewrite <- splitSentences_words, <- (List.app_nil_l (concat _)).
      change [] with (words "") at 1.
      rewrite <- (chunkFrom_words maxLen), <- chunk_chunkFrom, E. reflexivity. }
    split; [exact Hb |].
    rewrite (chunk_blank text maxLen Hb) in E.
    destruct (maxLen <? S (String.length text))%nat eqn:El; [discriminate |].
    apply Nat.ltb_ge in El. lia.
  - intros [Hb Hl]. rewrite (chunk_blank text maxLen Hb).
    assert (El : (maxLen <? S (String.length text))%nat = false)
      by (apply Nat.ltb_ge; lia).
    now rewrite El.
  - intros Hb Hl. rewrite (chunk_blank text maxLen Hb).
    assert (El : (maxLen <? S (String.length text))%nat = true)
      by (apply Nat.ltb_lt; lia).
    now rewrite El.
Qed.

Lemma chunk_nil_iff_witness : chunk "   " 3 = [""].
Proof. apply (proj2 (chunk_nil_iff "   " 3)); [reflexivity | vm_compute; lia]. Defined.

(** X8: the sentence split drops nothing but its separators: the pieces,
    put back together with suitable non-empty white space runs between them,
    are the text. *)
Theorem splitSentences_lossless (text : string) :
  exists seps,
    length seps = pred (length (splitSentences text))
    /\ List.Forall (fun sep => blank sep = true /\ Js.truthy sep = true) seps
    /\ rejoin (splitSentences text) seps = text.
Proof.
  assert (H : forall s st,
             exists ws seps,
               blank ws = true
               /\ length seps = pred (length (splitFrom st s))
               /\ List.Forall (fun sep => blank sep = true /\ Js.truthy sep = true) seps
               /\ s = ws +:+ rejoin (splitFrom st s) seps
               /\ (st <> InSep -> ws = "")).
  { induction s as [|c s IH]; intros st.
    - exists "", []. repeat split; auto.
    - assert (Hcons : exists ws seps,
                 blank ws = true
                 /\ length seps = pred (length (Js.consHead c (splitFrom (scanAfter c) s)))
                 /\ List.Forall (fun sep => blank sep = true /\ Js.truthy sep = true) seps
                 /\ String c s
                    = ws +:+ rejoin (Js.consHead c (splitFrom (scanAfter c) s)) seps
                 /\ (st <> InSep -> ws = "")).
      { destruct (IH (scanAfter c)) as (ws & seps & _ & Hlen & Hseps & E & Hws).
        rewrite Hws in E by (unfold scanAfter; destruct (Js.isTerminal c); discriminate).
        destruct (splitFrom_cons (scanAfter c) s) as (p & ps & Ep).
        exists "", seps. repeat split; auto.
        - rewrite Hlen, Ep. reflexivity.
        - rewrite str_app_nil_l, rejoin_consHead by (rewrite Ep; discriminate).
          now rewrite str_app_nil_l in E; rewrite <- E. }
      simpl. destruct st, (Js.isSpace c) eqn:Hc; try exact Hcons.
      + destruct (IH InSep) as (ws & seps & Hws & Hlen & Hseps & E & _).
        destruct (splitFrom_cons InSep s) as (p & ps & Ep). rewrite Ep in *.
        exists "", (String c ws :: seps). repeat split; auto.
        * simpl. now rewrite Hlen.
        * constructor; [| assumption]. rewrite blank_cons, Hc, Hws. auto.
        * rewrite str_app_nil_l.
          change (rejoin ("" :: p :: ps) (String c ws :: seps))
            with (String c (ws +:+ rejoin (p :: ps) seps)).
          now rewrite <- E.
      + destruct (IH InSep) as (ws & seps & Hws & Hlen & Hseps & E & _).
        exists (String c ws), seps. repeat split; auto.
        * rewrite blank_cons, Hc, Hws. auto.
        * rewrite str_app_cons. now rewrite <- E.
        * congruence. }
  destruct (H text Plain) as (ws & seps & _ & Hlen & Hseps & E & Hws).
  rewrite Hws, str_app_nil_l in E by discriminate. exists seps. auto.
Qed.

(** ** The resolver *)

Lemma indexOf_first (x : string) (pre rest : list string) :
  ~ List.In x pre -> Js.indexOf x (pre ++ x :: rest) = Some (length pre).
Proof.
  induction pre as [|y pre IH]; intros Hn; simpl.
  - now rewrite String.eqb_refl.
  - destruct (String.eqb_spec y x) as [-> | _]; [exfalso; apply Hn; now left |].
    rewrite IH; [reflexivity |]. intros H. apply Hn. now right.
Qed.

Lemma indexOf_none (x : string) (l : list string) :
  ~ List.In x l -> Js.indexOf x l = None.
Proof.
  induction l as [|y l IH]; intros Hn; simpl; [reflexivity |].
  destruct (String.eqb_spec y x) as [-> | _]; [exfalso; apply Hn; now left |].
  rewrite IH; [reflexivity |]. intros H. apply Hn. now right.
Qed.

Lemma nth_error_after (pre : list string) (x : string) (rest : list string) :
  nth_error (pre ++ x :: rest) (S (length pre)) = nth_error rest 0.
Proof. induction pre as [|y pre IH]; [reflexivity | exact IH]. Qed.

(** X5: the embed rule looks at the first path segment equal to ["embed"]
    only, and takes the segment right after it when that one is not empty;
    a later ["embed"] is never considered, and a path without the marker, or
    with the marker at its end, gives nothing. *)
Theorem afterEmbed_first (pre : list string) :
  ~ List.In "embed" pre ->
  (forall seg post,
      afterEmbed (pre ++ "embed" :: seg :: post) = if Js.truthy seg then Some seg else None)
  /\ afterEmbed (pre ++ ["embed"]) = None
  /\ afterEmbed pre = None.
Proof.
  intros Hn. unfold afterEmbed. split; [| split].
  - intros seg post. rewrite indexOf_first, nth_error_after by assumption. reflexivity.
  - rewrite indexOf_first, nth_error_after by assumption. reflexivity.
  - now rewrite indexOf_none.
Qed.

Lemma afterEmbed_first_witness :
  afterEmbed (Js.splitOn "/" "/embed//embed/dQw4w9WgXcQ") = None
  /\ afterEmbed (Js.splitOn "/" "/embed/abc/embed/def") = Some "abc".
Proof.
  assert (Hn : ~ List.In "embed" [""]) by (intros [H | []]; discriminate H).
  destruct (afterEmbed_first [""] Hn) as [H _].
  split; [exact (H "" ["embed"; "dQw4w9WgXcQ"]) | exact (H "abc" ["embed"; "def"])].
Defined.

(** ** The transcript acquirer *)

Lemma str_app_truthy_r (a b : string) : Js.truthy b = true -> Js.truthy (a +:+ b) = true.
Proof. destruct a; [now rewrite str_app_nil_l | reflexivity]. Qed.

Lemma join_space_empty (c : string) (cs : list string) :
  Js.join " " (c :: cs) = "" -> c = "" /\ cs = [].
Proof.
  destruct cs as [|d r]; [simpl; auto |].
  change (Js.join " " (c :: d :: r)) with (c +:+ " " +:+ Js.join " " (d :: r)).
  intros E. assert (H : Js.truthy (c +:+ " " +:+ Js.join " " (d :: r)) = true).
  { apply str_app_truthy_r. reflexivity. }
  rewrite E in H. discriminate.
Qed.

(** X6: the acquirer gives the empty text only when a caption tier answers
    with exactly one cue whose text is empty; then it stops there (the later
    tiers are not tried). A text made from the metadata is never empty. *)
Theorem fetchTranscript_empty_text (env : Env) (videoId : string) (h : list Call) :
  let tier1 := FetchCaptions videoId (Some "en") in
  let r1 := captions env h videoId (Some "en") in
  let r2 := captions env (h ++ [tier1]) videoId None in
  (forall h', fetchTranscript env videoId h = (Returned (Some ""), h') ->
     r1 = Gave [""] \/ (noCues r1 /\ r2 = Gave [""]))
  /\ (r1 = Gave [""] ->
      fetchTranscript env videoId h = (Returned (Some ""), h ++ [tier1])).
Proof.
  intros tier1 r1 r2.
  pose proof (fetchTranscript_run env videoId h) as E. cbv zeta in E.
  fold tier1 r1 r2 in E. rewrite E. clear E. split.
  - intros h' H. destruct r1 as [|[|c cs]] eqn:E1.
    3: { injection H as Hj _. apply join_space_empty in Hj as [-> ->]. now left. }
    all: right; split; [unfold noCues; auto |].
    all: destruct r2 as [|[|c' cs']] eqn:E2;
      try (injection H as Hj _; apply join_space_empty in Hj as [-> ->]; reflexivity).
    all: destruct (absent (YOUTUBE_API_KEY env)); [discriminate H |].
    all: rewrite metadataTier_run in H;
      destruct (metadata env _ _) as [|[[t d]|]]; try discriminate H.
    all: injection H as Hj _;
      assert (Ht : Js.truthy (t +:+ nl +:+ d) = true)
        by (apply str_app_truthy_r; reflexivity);
      rewrite Hj in Ht; discriminate.
  - intros E1. rewrite E1. reflexivity.
Qed.

Lemma fetchTranscript_empty_text_witness :
  fetchTranscript emptyCueEnv "dQw4w9WgXcQ" []
  = (Returned (Some ""), [FetchCaptions "dQw4w9WgXcQ" (Some "en")]).
Proof.
  apply (proj2 (fetchTranscript_empty_text emptyCueEnv "dQw4w9WgXcQ" [])). reflexivity.
Defined.

(** ** The flow *)

(** X7: captions made of one empty cue are answered as "Transcript not
    available": the flow stops after the first caption call, although an
    untried tier and a configured metadata key may exist. *)
Theorem empty_cue_reported_unavailable
    (env : Env) (urlOrId videoId : string) (h : list Call) :
  extractVideoId (parseURL env) urlOrId = Some videoId ->
  Js.truthy videoId = true ->
  captions env h videoId (Some "en") = Gave [""] ->
  summarizeYouTube env urlOrId h
  = (Returned transcriptUnavailable, h ++ [FetchCaptions videoId (Some "en")]).
Proof.
  intros Hid Ht Hc. unfold summarizeYouTube. rewrite Hid.
  rewrite (absent_some videoId Ht). change (default "" (Some videoId)) with videoId.
  unfold bind. rewrite fetchTranscript_run, Hc. reflexivity.
Qed.

Lemma empty_cue_reported_unavailable_witness :
  summarizeYouTube emptyCueEnv "dQw4w9WgXcQ" []
  = (Returned transcriptUnavailable, [FetchCaptions "dQw4w9WgXcQ" (Some "en")]).
Proof.
  apply (empty_cue_reported_unavailable emptyCueEnv "dQw4w9WgXcQ" "dQw4w9WgXcQ" []);
    reflexivity.
Defined.

Lemma fetchTranscript_calls (env : Env) (videoId : string) (h : list Call) :
  exists transcript calls,
    fetchTranscript env videoId h = (Returned transcript, h ++ calls)
    /\ List.Forall (fun c => isAcquisition c = true) calls
    /\ (1 <= length calls <= 3)%nat.
Proof.
  rewrite fetchTranscript_run.
  destruct (captions env h videoId (Some "en")) as [|[|c cs]];
    try (eexists _, [_]; repeat split; [repeat constructor | simpl; lia | simpl; lia]).
  all: destruct (captions env _ videoId None) as [|[|c' cs']];
    try (eexists _, [_; _]; repeat split; [repeat constructor | simpl; lia | simpl; lia]).
  all: destruct (absent (YOUTUBE_API_KEY env));
    try (eexists _, [_; _]; repeat split; [repeat constructor | simpl; lia | simpl; lia]).
  all: rewrite metadataTier_run, <- List.app_assoc;
    eexists _, [_; _; _]; repeat split; [repeat constructor | simpl; lia | simpl; lia].
Qed.

(** X9: the calls of one run come in this order: the calls of the acquirer
    (at most three), then one text generation per chunk in the order of the
    chunks, then at most one schema-constrained generation, which is made
    only after some chunk was sent. *)
Theorem summarizeYouTube_call_order (env : Env) (urlOrId : string) (h : list Call) :
  exists result acq parts final,
    summarizeYouTube env urlOrId h
    = (Returned result,
       h ++ acq ++ map GenerateText (prompts (length parts) 0 parts) ++ final)
    /\ List.Forall (fun c => isAcquisition c = true) acq
    /\ (length acq <= 3)%nat
    /\ (parts = [] \/ reachesChunks env urlOrId h parts (h ++ acq))
    /\ (final = [] \/ exists combined, final = [GenerateStructured (finalPrompt combined)])
    /\ (parts = [] -> final = []).
Proof.
  unfold summarizeYouTube.
  destruct (absent (extractVideoId (parseURL env) urlOrId)) eqn:Hv.
  { exists invalidReference, [], [], []. rewrite List.app_nil_r.
    repeat split; auto; simpl; lia. }
  apply absent_false in Hv as (videoId & Hv & Hvt). rewrite Hv.
  change (default "" (Some videoId)) with videoId.
  destruct (fetchTranscript_calls env videoId h) as (transcript & acq & Hf & Hacq & Hlen).
  unfold bind. rewrite Hf.
  destruct (absent transcript) eqn:Ht.
  { exists transcriptUnavailable, acq, [], []. simpl. rewrite List.app_nil_r.
    repeat split; auto; lia. }
  apply absent_false in Ht as (t & -> & Htt). change (default "" (Some t)) with t.
  assert (Hr : reachesChunks env urlOrId h (chunk t 6500) (h ++ acq)).
  { exists videoId, t. auto 10. }
  destruct (chunk t 6500) as [|p ps] eqn:Hp.
  { exists emptyTranscript, acq, [], []. simpl. rewrite List.app_nil_r.
    repeat split; auto; lia. }
  destruct (summarizeParts_run env (p :: ps) (h ++ acq)) as [_ E]. rewrite E. clear E.
  destruct (Js.truthy (combine _)).
  - rewrite finalSummary_run. eexists _, acq, (p :: ps), [_].
    rewrite <- !List.app_assoc. split; [reflexivity |].
    repeat split; eauto; try lia. discriminate.
  - exists allChunksFailed, acq, (p :: ps), [].
    rewrite <- !List.app_assoc, List.app_nil_r. repeat split; auto; try lia.
Qed.

(** X10: a result that the handler of the flow returns is either the
    output that the backend gave to the one schema-constrained call of the
    run (the call on the combined text, the last of the log), or a failure
    result: no bullets, a title, a summary text, and exactly one warning. *)
Theorem summarizeYouTube_result_shape
    (env : Env) (urlOrId : string) (h h' : list Call) (result : SummaryResult) :
  summarizeYouTube env urlOrId h = (Returned result, h') ->
  (exists combined h2,
      reachesReduction env urlOrId h combined h2
      /\ generateOutput env h2 (finalPrompt combined) = Gave (Some result)
      /\ h' = h2 ++ [GenerateStructured (finalPrompt combined)])
  \/ failureResult result.
Proof.
  assert (Hfail : forall r,
             List.In r [invalidReference; transcriptUnavailable; emptyTranscript;
                        allChunksFailed; noFinalOutput; generationError] ->
             failureResult r).
  { intros r Hr. simpl in Hr.
    repeat destruct Hr as [<- | Hr]; try contradiction;
      (repeat split; try reflexivity; eexists; split; reflexivity). }
  destruct (summarizeYouTube_cases env urlOrId h)
    as [[_ E] | [(v & t & calls & _ & _ & _ & _ & _ & E)
       | [(calls & _ & _ & E) | (parts & calls & Hr & _ & Hne & E)]]];
    rewrite E; clear E.
  1-3: intros [= <- _]; right; apply Hfail; simpl; auto.
  destruct (summarizeParts_run env parts (h ++ calls)) as [Hs E]. rewrite E. clear E.
  destruct (Js.truthy (combine _)) eqn:Hcomb.
  - rewrite finalSummary_run.
    destruct (generateOutput env _ _) as [|[r|]] eqn:Hout; intros [= <- <-].
    + right. apply Hfail. simpl. auto 10.
    + left. eexists _, _. split; [| split; [exact Hout | reflexivity]].
      exists parts, (h ++ calls), (answers env (length parts) 0 parts (h ++ calls)).
      auto.
    + right. apply Hfail. simpl. auto 10.
  - intros [= <- _]. right. apply Hfail. simpl. auto.
Qed.

Lemma summarizeYouTube_result_shape_witness :
  (exists combined h2,
      reachesReduction demoEnv "dQw4w9WgXcQ" [] combined h2
      /\ generateOutput demoEnv h2 (finalPrompt combined) = Gave (Some demoSummary)
      /\ snd (summarizeYouTube demoEnv "dQw4w9WgXcQ" [])
         = h2 ++ [GenerateStructured (finalPrompt combined)])
  \/ failureResult demoSummary.
Proof.
  apply (summarizeYouTube_result_shape demoEnv "dQw4w9WgXcQ" []).
  vm_compute. reflexivity.
Defined.

(** X11: a transcript that is not empty but all white space ends the flow
    with "Transcript is empty" only when it is shorter than 6500 code units;
    a longer one is sent to step 1 as a single empty chunk. *)
Theorem blank_transcript_flow
    (env : Env) (urlOrId videoId transcript : string) (h h1 : list Call) :
  extractVideoId (parseURL env) urlOrId = Some videoId ->
  Js.truthy videoId = true ->
  fetchTranscript env videoId h = (Returned (Some transcript), h1) ->
  Js.truthy transcript = true ->
  blank transcript = true ->
  summarizeYouTube env urlOrId h
  = (if (String.length transcript <? 6500)%nat then (Returned emptyTranscript, h1)
     else summarizeParts env [""] h1)
  /\ exists result calls,
       summarizeParts env [""] h1
       = (Returned result, h1 ++ GenerateText (chunkPrompt 0 1 "") :: calls).
Proof.
  intros Hid Hvt Hf Htt Hb. split.
  - unfold summarizeYouTube. rewrite Hid, (absent_some videoId Hvt).
    change (default "" (Some videoId)) with videoId.
    unfold bind. rewrite Hf, (absent_some transcript Htt).
    change (default "" (Some transcript)) with transcript.
    rewrite (chunk_blank transcript 6500 Hb).
    generalize 6500%nat. intros n.
    destruct (n <? S (String.length transcript))%nat eqn:E1;
      destruct (String.length transcript <? n)%nat eqn:E2; try reflexivity.
    + apply Nat.ltb_lt in E1, E2. lia.
    + apply Nat.ltb_ge in E1, E2. lia.
  - destruct (summarizeParts_run env [""] h1) as [_ E]. rewrite E. clear E.
    destruct (Js.truthy (combine _)).
    + rewrite finalSummary_run. simpl map. rewrite <- List.app_assoc. eauto.
    + simpl map. eauto.
Qed.

Lemma blank_transcript_flow_witness :
  summarizeYouTube blankCaptionsEnv "dQw4w9WgXcQ" []
  = (Returned emptyTranscript, [FetchCaptions "dQw4w9WgXcQ" (Some "en")]).
Proof.
  apply (proj1 (blank_transcript_flow blankCaptionsEnv "dQw4w9WgXcQ" "dQw4w9WgXcQ" " "
                  [] [FetchCaptions "dQw4w9WgXcQ" (Some "en")]
                  eq_refl eq_refl eq_refl eq_refl eq_refl)).
Defined.

(** ** The rate limiter *)

Lemma timesOf_filter (ip : string) (reqs : list (string * Z)) :
  timesOf ip (filter (fun r => fst r = ip) reqs) = timesOf ip reqs.
Proof.
  unfold timesOf. f_equal.
  induction reqs as [|r reqs IH]; [reflexivity |].
  rewrite filter_cons. case_decide as Hr.
  - rewrite filter_cons_True by exact Hr. now rewrite IH.
  - exact IH.
Qed.

(** X12: identities do not interfere: what the limiter keeps for an
    identity and decides for its next request is the same as if the
    requests of all other identities had never been made. *)
Theorem rateLimit_isolated
    (hits : gmap string (list Z)) (ip : string) (now : Z) (reqs : list (string * Z)) :
  let own := filter (fun r => fst r = ip) reqs in
  window (serve reqs hits).2 ip = window (serve own hits).2 ip
  /\ (rateLimit ip now (serve reqs hits).2).1 = (rateLimit ip now (serve own hits).2).1.
Proof.
  intros own. unfold own.
  rewrite !rateLimit_decision, !serve_window, timesOf_filter. auto.
Qed.

Lemma filter_slide_later (now t : Z) (w : list Z) :
  (t <= now)%Z ->
  filter (fun x => (now - x < WINDOW_MS)%Z) (filter (fun x => (t - x < WINDOW_MS)%Z) w)
  = filter (fun x => (now - x < WINDOW_MS)%Z) w.
Proof.
  intros Hle. induction w as [|x w IH]; [reflexivity |].
  rewrite (filter_cons (fun x => (t - x < WINDOW_MS)%Z)). case_decide as Ht.
  - rewrite !filter_cons. case_decide; now rewrite IH.
  - rewrite IH. rewrite filter_cons_False; [reflexivity | lia].
Qed.

Lemma filter_fold_slide (now : Z) (ts : list Z) :
  Forall (fun t => (t <= now)%Z) ts ->
  forall w,
    filter (fun x => (now - x < WINDOW_MS)%Z) (fold_left slide ts w)
    = filter (fun x => (now - x < WINDOW_MS)%Z) (w ++ ts).
Proof.
  induction 1 as [|t ts Ht Hts IH]; intros w; simpl; [now rewrite app_nil_r |].
  rewrite IH. unfold slide. change (w ++ t :: ts) with (w ++ [t] ++ ts).
  rewrite !filter_app, filter_slide_later by exact Ht.
  now rewrite <- app_assoc.
Qed.

(** X13: when the clock has not gone back (no earlier request of the
    identity bears a later time), the limiter counts every earlier request of
    the identity made less than 30 s ago, let through or not, and lets the
    new request through exactly when there are fewer than 15 of them. *)
Theorem rateLimit_counts_recent
    (hits : gmap string (list Z)) (ip : string) (now : Z) (reqs : list (string * Z)) :
  Forall (fun t => (t <= now)%Z) (timesOf ip reqs) ->
  let recent := filter (fun t => (now - t < 30000)%Z) (window hits ip ++ timesOf ip reqs) in
  window (rateLimit ip now (serve reqs hits).2).2 ip = recent ++ [now]
  /\ ((rateLimit ip now (serve reqs hits).2).1 = Next <-> (length recent < 15)%nat).
Proof.
  intros Hle recent.
  assert (E : slide (window (serve reqs hits).2 ip) now = recent ++ [now]).
  { unfold slide. rewrite serve_window, (filter_fold_slide now _ Hle). reflexivity. }
  rewrite rateLimit_window, rateLimit_decision, E. split; [reflexivity |].
  rewrite length_app. simpl. unfold MAX_REQ.
  destruct (15 <? length recent + 1)%nat eqn:El;
    [apply Nat.ltb_lt in El | apply Nat.ltb_ge in El];
    (split; intros; try discriminate; try reflexivity; lia).
Qed.

Lemma rateLimit_counts_recent_witness :
  (rateLimit "10.0.0.1" 30500 (serve burst ∅).2).1 = Reject429.
Proof.
  assert (Hle : Forall (fun t => (t <= 30500)%Z) (timesOf "10.0.0.1" burst)).
  { apply (bool_decide_unpack _). vm_compute. exact I. }
  destruct (rateLimit_counts_recent ∅ "10.0.0.1" 30500 burst Hle) as [_ H].
  destruct (rateLimit "10.0.0.1" 30500 (serve burst ∅).2).1 eqn:E; [| reflexivity].
  apply proj1 in H. specialize (H eq_refl). vm_compute in H. lia.
Defined.

(** X14: after the requests served, the list kept for an identity holds
    only times less than 30 s before its latest request, and ends with the
    time of that request. *)
Theorem serve_window_fresh
    (hits : gmap string (list Z)) (ip : string) (reqs : list (string * Z))
    (earlier : list Z) (latest : Z) :
  timesOf ip reqs = earlier ++ [latest] ->
  Forall (fun t => (latest - t < 30000)%Z) (window (serve reqs hits).2 ip)
  /\ last (window (serve reqs hits).2 ip) = Some latest.
Proof.
  intros E. rewrite serve_window, E, fold_slide_snoc. unfold slide, WINDOW_MS. split.
  - apply Forall_app. split.
    + apply Forall_forall. intros x Hx. now apply list_elem_of_filter in Hx as [Hx _].
    + repeat constructor. lia.
  - apply last_snoc.
Qed.

Lemma serve_window_fresh_witness :
  Forall (fun t => (1000 - t < 30000)%Z) (window (serve burst ∅).2 "10.0.0.1")
  /\ last (window (serve burst ∅).2 "10.0.0.1") = Some 1000%Z.
Proof.
  apply (serve_window_fresh ∅ "10.0.0.1" burst
           (repeat 0%Z 15 ++ repeat 1000%Z 14) 1000).
  vm_compute. reflexivity.
Defined.

Lemma fold_slide_length (ts : list Z) :
  forall w, (length (fold_left slide ts w) <= length w + length ts)%nat.
Proof.
  induction ts as [|t ts IH]; intros w; simpl; [lia |].
  specialize (IH (slide w t)).
  assert (Hs : (length (slide w t) <= S (length w))%nat).
  { unfold slide. rewrite length_app. simpl.
    pose proof (length_filter (fun x => (t - x < WINDOW_MS)%Z) w). lia. }
  lia.
Qed.

(** X15: a request is let through whenever fewer than 15 times are on
    record for its identity, whatever the times are: the first fifteen
    requests of a new identity always pass. *)
Theorem rateLimit_under_limit
    (hits : gmap string (list Z)) (ip : string) (now : Z) (reqs : list (string * Z)) :
  (length (window hits ip) + length (timesOf ip reqs) < 15)%nat ->
  (rateLimit ip now (serve reqs hits).2).1 = Next.
Proof.
  intros Hlen. rewrite rateLimit_decision, serve_window. unfold slide at 1.
  assert (Hlt : (MAX_REQ <? length (filter (fun t => (now - t < WINDOW_MS)%Z)
                                      (fold_left slide (timesOf ip reqs) (window hits ip))
                                    ++ [now]))%nat = false).
  { apply Nat.ltb_ge. rewrite length_app. simpl. unfold MAX_REQ.
    pose proof (length_filter (fun t => (now - t < WINDOW_MS)%Z)
                  (fold_left slide (timesOf ip reqs) (window hits ip))).
    pose proof (fold_slide_length (timesOf ip reqs) (window hits ip)). lia. }
  now rewrite Hlt.
Qed.

Lemma rateLimit_under_limit_witness :
  (rateLimit "10.0.0.1" (-5) (serve (firstn 14 burst) ∅).2).1 = Next.
Proof. apply rateLimit_under_limit. vm_compute. lia. Defined.

Lemma rateLimit_dom (ip : string) (now : Z) (hits : gmap string (list Z)) :
  dom (rateLimit ip now hits).2 = {[ip]} ∪ dom hits.
Proof.
  unfold rateLimit. destruct (MAX_REQ <? _)%nat; simpl; apply dom_insert_L.
Qed.

Lemma timesOf_nonempty (ip : string) (reqs : list (string * Z)) :
  ip ∈ reqs.*1 -> timesOf ip reqs <> [].
Proof.
  unfold timesOf. induction reqs as [|[ip' t] reqs IH]; intros Hin.
  - inversion Hin.
  - rewrite filter_cons. cbn [fst]. case_decide as Hip; [discriminate |].
    apply IH. rewrite fmap_cons in Hin. cbn [fst] in Hin.
    apply elem_of_cons in Hin as [-> | Hin]; [congruence | exact Hin].
Qed.

(** X16: the map only grows: its keys after the requests served are its
    keys before, together with every identity that made a request, and the
    list of such an identity is never empty. No entry is ever removed. *)
Theorem serve_dom (hits : gmap string (list Z)) (reqs : list (string * Z)) :
  dom (serve reqs hits).2 = dom hits ∪ list_to_set reqs.*1
  /\ forall ip, ip ∈ reqs.*1 -> window (serve reqs hits).2 ip <> [].
Proof.
  split.
  - revert hits. induction reqs as [|[ip now] rest IH]; intros hits.
    + simpl. now rewrite union_empty_r_L.
    + rewrite serve_cons. cbn [snd]. rewrite IH, rateLimit_dom.
      rewrite fmap_cons, list_to_set_cons. cbn [fst].
      rewrite (union_comm_L {[ip]} (dom hits)). now rewrite union_assoc_L.
  - intros ip Hin. rewrite serve_window.
    pose proof (timesOf_nonempty ip reqs Hin) as Hne.
    destruct (timesOf ip reqs) as [|t ts] using rev_ind; [congruence |].
    rewrite fold_slide_snoc. unfold slide. intros E.
    apply app_eq_nil in E as [_ E]. discriminate.
Qed.

Lemma serve_dom_witness : window (serve burst ∅).2 "10.0.0.1" <> [].
Proof.
  apply (proj2 (serve_dom ∅ burst)). apply (bool_decide_unpack _). vm_compute. exact I.
Defined.

(** X17: the list of an identity is not capped: requests that fall within
    one window are all kept, the rejected ones too, so the list is at least
    as long as the number of such requests. *)
Theorem serve_keeps_flood
    (hits : gmap string (list Z)) (ip : string) (reqs : list (string * Z)) :
  withinWindow (timesOf ip reqs) ->
  exists older, window (serve reqs hits).2 ip = older ++ timesOf ip reqs.
Proof.
  intros H. rewrite serve_window. now apply fold_slide_keeps.
Qed.

Lemma serve_keeps_flood_witness :
  exists older, window (serve burst ∅).2 "10.0.0.1" = older ++ timesOf "10.0.0.1" burst.
Proof.
  apply serve_keeps_flood. apply (bool_decide_unpack _). vm_compute. exact I.
Defined.

Lemma serve_fresh_all_pass (reqs : list (string * Z)) :
  forall hits,
    NoDup reqs.*1 ->
    (forall ip, ip ∈ reqs.*1 -> window hits ip = []) ->
    Forall (fun d => d = Next) (serve reqs hits).1.
Proof.
  induction reqs as [|[ip now] rest IH]; intros hits Hnd Hfresh; [constructor |].
  rewrite serve_cons. cbn [fst]. rewrite fmap_cons in Hnd, Hfresh. cbn [fst] in *.
  apply NoDup_cons in Hnd as [Hnotin Hnd].
  constructor.
  - rewrite rateLimit_decision, (Hfresh ip) by (now left). reflexivity.
  - apply IH; [exact Hnd |]. intros ip' Hin.
    rewrite rateLimit_window_other by (intros ->; contradiction).
    apply Hfresh. now right.
Qed.

(** X18: requests whose identities are all different are all let through,
    however many they are and whenever they come. The identity is read from
    the forwarded-for header first, so one client that changes its header on
    every request is never limited. *)
Theorem distinct_identities_all_pass (reqs : list (Request * Z)) :
  NoDup (map (fun r => identity (fst r)) reqs) ->
  Forall (fun d => d = Next) (serveRequests reqs ∅).1.
Proof.
  intros Hnd. unfold serveRequests. apply serve_fresh_all_pass.
  - assert (E : (map (fun r : Request * Z => (identity (fst r), snd r)) reqs).*1
                = map (fun r => identity (fst r)) reqs).
    { clear Hnd. induction reqs as [|r reqs IH]; [reflexivity |].
      cbn. f_equal. exact IH. }
    rewrite E. exact Hnd.
  - intros ip _. reflexivity.
Qed.

Lemma distinct_identities_all_pass_witness :
  (serveRequests spoofed ∅).1 = repeat Next 20.
Proof.
  assert (H : Forall (fun d => d = Next) (serveRequests spoofed ∅).1).
  { apply distinct_identities_all_pass. apply (bool_decide_unpack _). vm_compute. exact I. }
  assert (Hl : length (serveRequests spoofed ∅).1 = 20%nat) by (vm_compute; reflexivity).
  revert H Hl. generalize (serveRequests spoofed ∅).1. intros l H.
  do 21 (destruct l as [|? l]; [try discriminate |]; try discriminate);
    intros _; repeat match goal with H : Forall _ (_ :: _) |- _ => inversion_clear H end;
    subst; reflexivity.
Defined.

Lemma allb_trimStart (p : ascii -> bool) (s : string) :
  Js.allb p s = true -> Js.allb p (Js.trimStart s) = true.
Proof.
  induction s as [|c s IH]; [reflexivity |].
  simpl. intros [Hc Hs]%andb_prop. destruct (Js.isSpace c); [auto |].
  simpl. now rewrite Hc, Hs.
Qed.

Lemma allb_trimEnd (p : ascii -> bool) (s : string) :
  Js.allb p s = true -> Js.allb p (Js.trimEnd s) = true.
Proof.
  induction s as [|c s IH]; [reflexivity |].
  simpl. intros [Hc Hs]%andb_prop. specialize (IH Hs).
  destruct (Js.trimEnd s) as [|d t].
  - destruct (Js.isSpace c); [reflexivity |]. simpl. now rewrite Hc.
  - change (Js.allb p (String c (String d t))) with (p c && Js.allb p (String d t)).
    now rewrite Hc, IH.
Qed.

Lemma splitOn_head_free (sep : ascii) (s : string) :
  Js.allb (fun c => negb (Ascii.eqb c sep)) (hd "" (Js.splitOn sep s)) = true.
Proof.
  induction s as [|c s IH]; [reflexivity |].
  simpl. destruct (Ascii.eqb c sep) eqn:E; [reflexivity |].
  destruct (Js.splitOn sep s) as [|p ps]; simpl in *; now rewrite E.
Qed.

(** X19: the identity of a client is never the empty string. When the
    first token of the forwarded-for header is not blank it is the identity,
    whatever [req.ip] is, and it has no white space around it and no comma;
    with no header and no address the identity is ["unknown"]. *)
Theorem clientIp_shape (forwarded ip : option string) :
  Js.truthy (clientIp forwarded ip) = true
  /\ (forall v,
        forwarded = Some v ->
        Js.truthy (Js.trim (hd "" (Js.splitOn "," v))) = true ->
        clientIp forwarded ip = Js.trim (hd "" (Js.splitOn "," v))
        /\ Js.trim (clientIp forwarded ip) = clientIp forwarded ip
        /\ noComma (clientIp forwarded ip) = true)
  /\ (forwarded = None -> absent ip = true -> clientIp forwarded ip = "unknown").
Proof.
  split; [| split].
  - unfold clientIp.
    destruct (Js.truthy match forwarded with
                        | Some v => Js.trim (hd "" (Js.splitOn "," v))
                        | None => ""
                        end) eqn:E; [exact E |].
    destruct (absent ip) eqn:Ha; [reflexivity |].
    apply absent_false in Ha as (t & -> & Ht). exact Ht.
  - intros v -> Ht. unfold clientIp. rewrite Ht.
    split; [reflexivity |]. split; [apply trim_idem |].
    unfold noComma, Js.trim. apply allb_trimEnd, allb_trimStart, splitOn_head_free.
  - intros -> Ha. unfold clientIp. simpl. now rewrite Ha.
Qed.

Lemma clientIp_shape_witness :
  clientIp (Some " 10.0.0.1 , 10.0.0.2") (Some "::1") = "10.0.0.1"
  /\ clientIp None (Some "") = "unknown".
Proof.
  split.
  - apply (proj1 (proj2 (clientIp_shape (Some " 10.0.0.1 , 10.0.0.2") (Some "::1")))
             " 10.0.0.1 , 10.0.0.2" eq_refl eq_refl).
  - apply (proj2 (proj2 (clientIp_shape None (Some ""))) eq_refl eq_refl).
Defined.

(** ** The display client *)

Lemma step_busyInvariant (w w' : App.World) (e : App.Event) :
  App.busyInvariant w -> App.step w e = Some w' -> App.busyInvariant w'.
Proof.
  unfold App.busyInvariant. intros Hinv Hstep.
  destruct e; simpl in Hstep.
  - injection Hstep as <-. exact Hinv.
  - injection Hstep as <-. right. simpl. split; [lia | reflexivity].
  - destruct (App.inFlight w); [discriminate |]. injection Hstep as <-. now left.
  - destruct (App.inFlight w); [discriminate |]. injection Hstep as <-. now left.
Qed.

Lemma run_busyInvariant (events : list App.Event) :
  forall w w', App.busyInvariant w -> App.run w events = Some w' -> App.busyInvariant w'.
Proof.
  induction events as [|e rest IH]; intros w w' Hinv Hrun; simpl in Hrun.
  - now injection Hrun as <-.
  - destruct (App.step w e) as [w1|] eqn:E; [| discriminate].
    eapply IH; [| exact Hrun]. eapply step_busyInvariant; eassumption.
Qed.

(** X20: in the display client, after any sequence of edits, clicks and
    completions, the wait message shows only while a request is in flight,
    and the summary shown with it is the cleared one: a click wipes the
    summary of the request before. *)
Theorem client_busy_only_while_pending (events : list App.Event) (w : App.World) :
  App.run App.start events = Some w ->
  App.loading (App.app w) = ""
  \/ ((0 < App.inFlight w)%nat /\ App.summarySignal (App.app w) = App.cleared).
Proof.
  intros Hrun. apply (run_busyInvariant events App.start w); [now left | exact Hrun].
Qed.

Lemma client_busy_only_while_pending_witness :
  App.loading (App.app {| App.app := {| App.summarySignal := App.cleared;
                                        App.loading := App.pleaseWait;
                                        App.videoUrl := "dQw4w9WgXcQ" |};
                          App.inFlight := 1;
                          App.sent := ["dQw4w9WgXcQ"; "dQw4w9WgXcQ"] |}) = ""
  \/ ((0 < 1)%nat /\ App.cleared = App.cleared).
Proof.
  apply (client_busy_only_while_pending
           [App.Edit "dQw4w9WgXcQ"; App.Click; App.Next (Some (Some demoSummary));
            App.Click]).
  reflexivity.
Defined.
